(** * mxweb-react-hooks: the event chain combinator, the memoized wrappers
      and the media-query evaluator

    A shallow embedding of [src/use-combine-callback.ts] ([combineEvents],
    [useCombineEvents]), [src/use-combine-refs.ts] ([useCombineRefs]) and of
    the media-query hook ([safeMatch], [matching], [isEqual]), followed by
    the properties of the specification stated over it. *)

From stdpp Require Import base decidable option strings numbers list.

Set Default Proof Using "Type".

(** ** JavaScript values that the code inspects *)

(** Values thrown by the code or by a handler. [TypeError] is what
    [Object.prototype.hasOwnProperty.call(undefined, ...)] raises; a handler
    may throw or reject with any value, here numbered. *)
Inductive error :=
  | TypeError
  | Thrown (n : nat).

#[global] Instance error_eq_dec : EqDecision error.
Proof. solve_decision. Defined.

(** The value held by a property such as [defaultPrevented]. *)
Inductive propval :=
  | PUndefined
  | PNull
  | PBool (b : bool)
  | PNum (z : Z)
  | PStr (s : string)
  | PObject.

(** JavaScript's ToBoolean on those values. *)
Definition truthy (v : propval) : bool :=
  match v with
  | PUndefined | PNull => false
  | PBool b => b
  | PNum z => negb (z =? 0)%Z
  | PStr s => negb (String.eqb s EmptyString)
  | PObject => true
  end.

(** The first call argument as far as [combineEvents] reads it: an object
    is its own [defaultPrevented] slot (absent or holding a value) and the
    [defaultPrevented] it inherits through its prototype chain, if any. *)
Record object := Object {
  own_defaultPrevented : option propval;
  inherited_defaultPrevented : option propval
}.

Inductive value :=
  | VUndefined
  | VNull
  | VPrimitive
  | VObject (o : object).

(** [args[0]]: reading index 0 of an empty argument list gives
    [undefined]. *)
Definition first_arg (args : list value) : value :=
  match args with
  | [] => VUndefined
  | v :: _ => v
  end.

(** [Object.prototype.hasOwnProperty.call(event, "defaultPrevented")]:
    ToObject throws on [undefined] and [null]; the wrapper of a primitive
    has no such own property. *)
Definition hasOwnProperty_defaultPrevented (event : value) : error + bool :=
  match event with
  | VUndefined | VNull => inl TypeError
  | VPrimitive => inr false
  | VObject o => inr (bool_decide (is_Some (own_defaultPrevented o)))
  end.

(** [event.defaultPrevented]: the own slot first, then the prototype
    chain. *)
Definition get_defaultPrevented (event : value) : propval :=
  match event with
  | VObject o =>
      match own_defaultPrevented o with
      | Some v => v
      | None => default PUndefined (inherited_defaultPrevented o)
      end
  | _ => PUndefined
  end.

(** ** The event chain combinator ([src/use-combine-callback.ts]) *)

Module EventChain.

(** An element of the [callbacks] rest array: a function, identified by its
    reference, or one of the two absent values. *)
Inductive entry :=
  | Fn (f : nat)
  | Null
  | Undefined.

#[global] Instance entry_eq_dec : EqDecision entry.
Proof. solve_decision. Defined.

(** [if (callback)]: functions are truthy, [null] and [undefined] are not. *)
Definition is_callable (c : entry) : bool :=
  match c with
  | Fn _ => true
  | Null | Undefined => false
  end.

(** The function references of a list of entries, in order. *)
Definition functions (l : list entry) : list nat :=
  omap (λ c, match c with Fn f => Some f | _ => None end) l.

(** *** The JavaScript [Set] of callbacks

    A [Set] iterates in insertion order and holds each value once
    (SameValueZero, which is reference identity on functions). *)
Definition Set_add (s : list entry) (x : entry) : list entry :=
  if decide (x ∈ s) then s else s ++ [x].

Definition Set_new (l : list entry) : list entry := foldl Set_add [] l.

Definition Set_size (s : list entry) : nat := length s.

Definition Set_delete (x : entry) (s : list entry) : list entry :=
  filter (λ y, y ≠ x) s.

(** *** What a handler does

    A handler returns a plain value, throws, or returns a promise; before
    that promise settles the handler may touch the event again. *)
Inductive settlement :=
  | Fulfils
  | Rejects (e : error)
  | NeverSettles.

Inductive outcome :=
  | Returns
  | Throws (e : error)
  | Promised (later : object → object) (s : settlement).

(** The synchronous part of a call: what it does to the event object and
    how it ends. *)
Record reaction := Reaction {
  touch : object → object;
  out : outcome
}.

(** The behaviour of every function reference, as a function of the state
    of [args[0]] when it is called. *)
Definition handlers := nat → value → reaction.

(** A handler can only mutate [args[0]] when it is an object. *)
Definition touched (k : object → object) (event : value) : value :=
  match event with
  | VObject o => VObject (k o)
  | v => v
  end.

(** *** One call of [execute()] *)

Record state := State {
  uniqueCallbacks : list entry;
  args : list value
}.

Definition set_first_arg (v : value) (args : list value) : list value :=
  match args with
  | [] => []
  | _ :: rest => v :: rest
  end.

Inductive step :=
  | Return_empty
      (* [if (!uniqueCallbacks.size) return] *)
  | Skip (st : state)
      (* falsy entry: [setTimeout(execute, 0)] *)
  | Return_cancelled (st : state)
      (* own truthy [defaultPrevented]: [return] *)
  | Throw (e : error) (st : state)
      (* the inspection itself threw *)
  | Call (f : nat) (event : value) (o : outcome) (st : state).
      (* [callback(...args)] ran; [st] is the state after its synchronous part *)

Definition execute (h : handlers) (st : state) : step :=
  match uniqueCallbacks st with
  | [] => Return_empty
  | callback :: _ =>
      let st' := State (Set_delete callback (uniqueCallbacks st)) (args st) in
      match callback with
      | Fn f =>
          let event := first_arg (args st) in
          match hasOwnProperty_defaultPrevented event with
          | inl e => Throw e st'
          | inr own =>
              if own && truthy (get_defaultPrevented event) then Return_cancelled st'
              else
                let r := h f event in
                Call f event (out r)
                  (State (uniqueCallbacks st')
                     (set_first_arg (touched (touch r) event) (args st)))
          end
      | Null | Undefined => Skip st'
      end
  end.

(** *** The tasks that follow

    The promise built around the call is fulfilled when the handler returns
    or when the promise it returned fulfils; only then does the [then]
    callback schedule [execute] again with [setTimeout(execute, 0)]. *)
Inductive event :=
  | Invoked (f : nat) (at_event : value)
  | Awaited (f : nat)
  | Timer.

Inductive ending :=
  | Completed
  | Cancelled
  | Rejected (e : error)
  | Stalled
  | Raised (e : error)
  | OutOfFuel.

Record run := Run {
  log : list event;
  ending_of : ending;
  final : state
}.

Definition logged (l : list event) (r : run) : run :=
  Run (l ++ log r) (ending_of r) (final r).

Definition later_state (k : object → object) (st : state) : state :=
  State (uniqueCallbacks st) (set_first_arg (touched k (first_arg (args st))) (args st)).

Fixpoint drain (fuel : nat) (h : handlers) (st : state) : run :=
  match fuel with
  | 0 => Run [] OutOfFuel st
  | S fuel =>
      match execute h st with
      | Return_empty => Run [] Completed st
      | Skip st' => logged [Timer] (drain fuel h st')
      | Return_cancelled st' => Run [] Cancelled st'
      | Throw e st' => Run [] (Raised e) st'
      | Call f ev Returns st' =>
          logged [Invoked f ev; Awaited f; Timer] (drain fuel h st')
      | Call f ev (Throws e) st' => Run [Invoked f ev] (Rejected e) st'
      | Call f ev (Promised later Fulfils) st' =>
          logged [Invoked f ev; Awaited f; Timer] (drain fuel h (later_state later st'))
      | Call f ev (Promised later (Rejects e)) st' =>
          Run [Invoked f ev] (Rejected e) (later_state later st')
      | Call f ev (Promised later NeverSettles) st' =>
          Run [Invoked f ev] Stalled (later_state later st')
      end
  end.

(** *** [combineEvents(...callbacks)] and the handler it returns

    [combinedCallback] builds the set, calls [execute()] once and returns
    nothing: what its caller gets is [undefined], or the exception of that
    first [execute()]. Everything after the first handler's synchronous part
    happens in later tasks ([chain]). *)
Record invocation := Invocation {
  returned : outcome;
  chain : run
}.

Definition combinedCallback (h : handlers) (callbacks : list entry)
    (args : list value) : invocation :=
  let uniqueCallbacks := Set_new callbacks in
  let st := State uniqueCallbacks args in
  Invocation
    (match execute h st with
     | Throw e _ => Throws e
     | _ => Returns
     end)
    (drain (S (Set_size uniqueCallbacks)) h st).

Definition combineEvents (h : handlers) (callbacks : list entry) :
    list value → invocation :=
  combinedCallback h callbacks.

(** *** Reading a run *)

(** The function references invoked, in order of invocation. *)
Definition calls (l : list event) : list nat :=
  omap (λ e, match e with Invoked f _ => Some f | _ => None end) l.

(** No handler starts while another one is unsettled: every invocation is
    directly followed by the fulfilment of its own result. *)
Fixpoint one_at_a_time (l : list event) : bool :=
  match l with
  | [] => true
  | Invoked f _ :: Awaited g :: l' => bool_decide (f = g) && one_at_a_time l'
  | Invoked _ _ :: _ => false
  | Awaited _ :: _ => false
  | Timer :: l' => one_at_a_time l'
  end.

(** [execute] found own truthy [defaultPrevented]. *)
Definition cancelled (event : value) : bool :=
  match hasOwnProperty_defaultPrevented event with
  | inl _ => false
  | inr own => own && truthy (get_defaultPrevented event)
  end.

(** The invocation was neither cancelled nor failed. *)
Definition uninterrupted (r : run) : bool :=
  match ending_of r with
  | Cancelled | Rejected _ | Raised _ => false
  | _ => true
  end.

(** Every awaited result settled. *)
Definition settled (r : run) : bool :=
  match ending_of r with
  | Stalled => false
  | _ => true
  end.

(** The distinct elements of a list in order of first occurrence. *)
Fixpoint first_occurrences {A} `{EqDecision A} (l : list A) : list A :=
  match l with
  | [] => []
  | x :: l => x :: filter (λ y, y ≠ x) (first_occurrences l)
  end.

(** The chain as a recursion on the iteration order of the set: what
    [drain] computes once the head has been deleted from a duplicate-free
    set. *)
Fixpoint sequence (h : handlers) (s : list entry) (args : list value) : run :=
  match s with
  | [] => Run [] Completed (State [] args)
  | Fn f :: rest =>
      let event := first_arg args in
      match hasOwnProperty_defaultPrevented event with
      | inl e => Run [] (Raised e) (State rest args)
      | inr own =>
          if own && truthy (get_defaultPrevented event) then
            Run [] Cancelled (State rest args)
          else
            let r := h f event in
            let args' := set_first_arg (touched (touch r) event) args in
            match out r with
            | Returns =>
                logged [Invoked f event; Awaited f; Timer] (sequence h rest args')
            | Throws e => Run [Invoked f event] (Rejected e) (State rest args')
            | Promised later Fulfils =>
                logged [Invoked f event; Awaited f; Timer]
                  (sequence h rest
                     (set_first_arg (touched later (first_arg args')) args'))
            | Promised later (Rejects e) =>
                Run [Invoked f event] (Rejected e)
                  (later_state later (State rest args'))
            | Promised later NeverSettles =>
                Run [Invoked f event] Stalled (later_state later (State rest args'))
            end
      end
  | _ :: rest => logged [Timer] (sequence h rest args)
  end.

(** [args[0]] carries no own [defaultPrevented] (and is an object or a
    primitive, so that the inspection does not throw). *)
Definition no_own_flag (event : value) : Prop :=
  hasOwnProperty_defaultPrevented event = inr false.

(** No handler of the list gives [args[0]] an own [defaultPrevented],
    neither in its synchronous part nor before its promise settles. *)
Definition keeps_no_own_flag (h : handlers) (callbacks : list entry) : Prop :=
  ∀ f v, Fn f ∈ callbacks → no_own_flag v →
    no_own_flag (touched (touch (h f v)) v)
    ∧ ∀ later s, out (h f v) = Promised later s →
        no_own_flag (touched later (touched (touch (h f v)) v)).

(** The handler called on [event] throws [e] or returns a promise that
    rejects with [e]. *)
Definition fails_with (o : outcome) (e : error) : Prop :=
  o = Throws e ∨ ∃ later, o = Promised later (Rejects e).

(** What a caller can await: a returned promise that rejects with [e]. *)
Definition rejects_with (o : outcome) (e : error) : Prop :=
  ∃ later, o = Promised later (Rejects e).

(** *** Sample handlers and events *)

(** The plain empty object [{}]. *)
Definition plain_event : value := VObject (Object None None).

(** An object whose prototype answers [defaultPrevented] with [true]. *)
Definition inheriting_event : value :=
  VObject (Object None (Some (PBool true))).

(** [e.defaultPrevented = true] on the object itself. *)
Definition preventDefault (o : object) : object :=
  Object (Some (PBool true)) (inherited_defaultPrevented o).

(** Handlers that return at once and leave the event alone. *)
Definition quiet : handlers := λ _ _, Reaction id Returns.

(** Handler 1 returns a promise that fulfils, the others return at once. *)
Definition one_async : handlers := λ f _,
  Reaction id (if decide (f = 1) then Promised id Fulfils else Returns).

(** Handler 0 throws, the others return at once. *)
Definition first_throws : handlers := λ f _,
  Reaction id (if decide (f = 0) then Throws (Thrown 7) else Returns).

(** Handler 0 returns a promise that rejects, the others return at once. *)
Definition first_rejects : handlers := λ f _,
  Reaction id
    (if decide (f = 0) then Promised id (Rejects (Thrown 7)) else Returns).

(** Handler 0 prevents the default synchronously, the others return. *)
Definition first_prevents : handlers := λ f _,
  Reaction (if decide (f = 0) then preventDefault else id) Returns.

End EventChain.

(** ** The memoized wrappers ([useCombineEvents], [useCombineRefs]) *)

Module Memo.

(** Values compared by identity: function objects, arrays and ref objects
    are heap addresses. *)
Inductive reference :=
  | RFunction (a : nat)
  | RArray (a : nat)
  | RObject (a : nat)
  | RNull
  | RUndefined.

#[global] Instance reference_eq_dec : EqDecision reference.
Proof. solve_decision. Defined.

(** [Object.is] on those values. *)
Definition Object_is (x y : reference) : bool := bool_decide (x = y).

(** What a combined handler closes over: the rest array it was built
    from. *)
Inductive closure :=
  | CombinedEvents (callbacks : nat)
  | CombinedRefs (refs : nat).

(** The heap: [next] is the first unused address. *)
Record heap := Heap {
  next : nat;
  arrays : list (nat * list reference);
  closures : list (nat * closure)
}.

Definition alloc_array (xs : list reference) (H : heap) : nat * heap :=
  (next H, Heap (S (next H)) ((next H, xs) :: arrays H) (closures H)).

Definition alloc_closure (c : closure) (H : heap) : nat * heap :=
  (next H, Heap (S (next H)) (arrays H) ((next H, c) :: closures H)).

(** [combineEvents(...callbacks)] and [combineRefs(...refs)] as seen from
    the heap: the call collects its arguments in a fresh rest array and
    returns a fresh function object closed over it. *)
Definition combineEvents (callbacks : list reference) (H : heap) :
    reference * heap :=
  let '(a, H1) := alloc_array callbacks H in
  let '(f, H2) := alloc_closure (CombinedEvents a) H1 in
  (RFunction f, H2).

Definition combineRefs (refs : list reference) (H : heap) :
    reference * heap :=
  let '(a, H1) := alloc_array refs H in
  let '(f, H2) := alloc_closure (CombinedRefs a) H1 in
  (RFunction f, H2).

(** React's [useMemo] is not part of the repository; it is taken with the
    contract React documents: the hook keeps the last value with the
    dependency list it was computed for, and recomputes unless every
    dependency is [Object.is]-equal to the previous one. *)
Record hook := Hook {
  memoizedValue : reference;
  memoizedDeps : list reference
}.

Fixpoint areHookInputsEqual (nextDeps prevDeps : list reference) : bool :=
  match nextDeps, prevDeps with
  | x :: nextDeps, y :: prevDeps =>
      Object_is x y && areHookInputsEqual nextDeps prevDeps
  | _, _ => true
  end.

Record rendered := Rendered {
  handler : reference;
  cell : option hook;
  heap_after : heap
}.

Definition recompute (create : heap → reference * heap)
    (deps : list reference) (H : heap) : rendered :=
  let '(v, H') := create H in Rendered v (Some (Hook v deps)) H'.

Definition useMemo (create : heap → reference * heap)
    (deps : list reference) (memoizedState : option hook) (H : heap) :
    rendered :=
  match memoizedState with
  | None => recompute create deps H
  | Some prev =>
      if areHookInputsEqual deps (memoizedDeps prev)
      then Rendered (memoizedValue prev) memoizedState H
      else recompute create deps H
  end.

(** [useMemo(() => combineEvents(...callbacks), [callbacks])]: the rest
    parameter [callbacks] is a fresh array on every call of the hook, and
    that array is the single dependency. *)
Definition useCombineEvents (callbacks : list reference)
    (memoizedState : option hook) (H : heap) : rendered :=
  let '(a, H1) := alloc_array callbacks H in
  useMemo (combineEvents callbacks) [RArray a] memoizedState H1.

(** [useMemo(() => combineRefs(...refs), [refs])]. *)
Definition useCombineRefs (refs : list reference)
    (memoizedState : option hook) (H : heap) : rendered :=
  let '(a, H1) := alloc_array refs H in
  useMemo (combineRefs refs) [RArray a] memoizedState H1.

(** Two successive renders of the same hook with the same arguments. *)
Definition render_twice
    (use : list reference → option hook → heap → rendered)
    (xs : list reference) (H : heap) : rendered * rendered :=
  let r1 := use xs None H in
  (r1, use xs (cell r1) (heap_after r1)).

(** A heap where only the function object [h1] (at address 0) exists. *)
Definition one_handler_heap : heap := Heap 1 [] [].

End Memo.

(** ** The media-query evaluator ([useMediaQuery]'s helpers) *)

Module MediaQuery.

(** *** The display environment

    [window.matchMedia], when it is callable, is taken as the function from
    a query to what [window.matchMedia(query).matches] evaluates to: a
    boolean, or an exception thrown by the call or by the read. *)
Inductive member :=
  | NotCallable
  | Function (f : string → error + bool).

Record window := Window {
  own_matchMedia : option member;
  inherited_matchMedia : option member
}.

(** [None] when [typeof window === "undefined"]. *)
Definition environment := option window.

Definition isServer (w : environment) : bool :=
  match w with
  | None => true
  | Some _ => false
  end.

(** [Object.prototype.hasOwnProperty.call(window, "matchMedia")], which
    the code evaluates only when [window] is defined. *)
Definition hasOwnProperty_matchMedia (w : environment) : bool :=
  match w with
  | Some win => bool_decide (is_Some (own_matchMedia win))
  | None => false
  end.

(** [window.matchMedia(query).matches]: the own property first, then the
    prototype chain; calling what is not a function throws. *)
Definition window_matchMedia (w : environment) (query : string) : error + bool :=
  match w with
  | Some win =>
      match own_matchMedia win with
      | Some (Function f) => f query
      | Some NotCallable => inl TypeError
      | None =>
          match inherited_matchMedia win with
          | Some (Function f) => f query
          | _ => inl TypeError
          end
      end
  | None => inl TypeError
  end.

(** The body of the [try] block of [safeMatch]. *)
Definition safeMatch_try (w : environment) (query : string) : error + bool :=
  if isServer w || negb (hasOwnProperty_matchMedia w) then inr false
  else window_matchMedia w query.

(** [try { ... } catch { return false; }]. *)
Definition safeMatch (w : environment) (query : string) : bool :=
  match safeMatch_try w query with
  | inl _ => false
  | inr b => b
  end.

(** The query capability the code looks for: a callable own [matchMedia]
    of [window]. *)
Definition query_capability (w : environment) :
    option (string → error + bool) :=
  match w with
  | Some (Window (Some (Function f)) _) => Some f
  | _ => None
  end.

(** *** Plain objects with string keys

    An object literal is its own enumerable properties, in the order in
    which [Object.keys] lists them. *)
Definition record (V : Type) := list (string * V).

Definition Object_keys {V} (o : record V) : list string := o.*1.

Fixpoint own {V} (o : record V) (key : string) : option V :=
  match o with
  | [] => None
  | (k, v) :: o => if decide (k = key) then Some v else own o key
  end.

Fixpoint overwrite {V} (o : record V) (key : string) (v : V) : record V :=
  match o with
  | [] => []
  | (k, w) :: o =>
      if decide (k = key) then (k, v) :: o else (k, w) :: overwrite o key v
  end.

(** [rs[key] = v] on an ordinary object, for a boolean [v]: an own
    property is overwritten; otherwise the assignment goes through the
    prototype, where [Object.prototype] has an accessor for ["__proto__"]
    whose setter ignores a value that is neither an object nor [null];
    every other name becomes a new own property. *)
Definition assign (rs : record bool) (key : string) (v : bool) : record bool :=
  match own rs key with
  | Some _ => overwrite rs key v
  | None => if decide (key = "__proto__") then rs else rs ++ [(key, v)]
  end.

(** The names every ordinary object inherits from [Object.prototype]. *)
Definition Object_prototype_names : list string :=
  ["constructor"; "__proto__"; "hasOwnProperty"; "isPrototypeOf";
   "propertyIsEnumerable"; "toLocaleString"; "toString"; "valueOf";
   "__defineGetter__"; "__defineSetter__"; "__lookupGetter__";
   "__lookupSetter__"].

(** What [o[key]] reads on an object holding booleans. *)
Inductive reading :=
  | ABoolean (b : bool)
  | AnUndefined
  | AnInherited (key : string).

#[global] Instance reading_eq_dec : EqDecision reading.
Proof. solve_decision. Defined.

Definition get (o : record bool) (key : string) : reading :=
  match own o key with
  | Some b => ABoolean b
  | None =>
      if decide (key ∈ Object_prototype_names) then AnInherited key
      else AnUndefined
  end.

(** [x === y]. *)
Definition strict_equal (x y : reading) : bool := bool_decide (x = y).

(** *** [matching] and [isEqual] *)

Inductive MediaQuery :=
  | Single (query : string)
  | Named (queries : record string).

Inductive MediaMatchResult :=
  | Flag (b : bool)
  | Flags (rs : record bool).

(** [query[key]!] for a key that [Object.keys(query)] listed. *)
Definition query_at (queries : record string) (key : string) : string :=
  default "undefined" (own queries key).

Definition matching (w : environment) (query : MediaQuery) : MediaMatchResult :=
  match query with
  | Named queries =>
      Flags (foldl (λ rs key, assign rs key (safeMatch w (query_at queries key)))
               [] (Object_keys queries))
  | Single q => Flag (safeMatch w q)
  end.

Definition isEqual (a b : MediaMatchResult) : bool :=
  match a, b with
  | Flags a, Flags b =>
      let aKeys := Object_keys a in
      let bKeys := Object_keys b in
      if negb (length aKeys =? length bKeys) then false
      else if length aKeys =? 0 then true
      else forallb (λ key, strict_equal (get a key) (get b key)) aKeys
  | Flag a, Flag b => Bool.eqb a b
  | _, _ => false
  end.

(** *** Sample environments and objects *)

(** A display that matches ["wide"] only. *)
Definition wide_display : environment :=
  Some (Window (Some (Function (λ q, inr (String.eqb q "wide")))) None).

(** A display whose [matchMedia] throws on every query. *)
Definition broken_display : environment :=
  Some (Window (Some (Function (λ _, inl (Thrown 1)))) None).

(** [JSON.parse('{"__proto__": "wide"}')]: an object with one own
    property named ["__proto__"]. *)
Definition proto_named : record string := [("__proto__", "wide")].

End MediaQuery.

(** ** The parallel combinator ([combineCallback]) *)

Module Callbacks.
Import EventChain.

(** What one call of the combined callback did before it returned: the
    calls made, the promises it received and dropped, how it ended for its
    caller, and the arguments as the callbacks left them. *)
Record fired := Fired {
  made : list event;
  dropped : list (nat * settlement);
  completion : outcome;
  args_after : list value
}.

Definition after_call (e : event) (p : list (nat * settlement)) (r : fired) :
    fired :=
  Fired (e :: made r) (p ++ dropped r) (completion r) (args_after r).

(** [callbacks.forEach((callback) => callback?.(...args))]: every entry in
    array order; an absent one is passed over; what a callback returns is
    discarded; an exception leaves the loop. *)
Fixpoint forEach (h : handlers) (callbacks : list entry) (args : list value) :
    fired :=
  match callbacks with
  | [] => Fired [] [] Returns args
  | Fn f :: rest =>
      let event := first_arg args in
      let r := h f event in
      let args' := set_first_arg (touched (touch r) event) args in
      match out r with
      | Returns => after_call (Invoked f event) [] (forEach h rest args')
      | Throws e => Fired [Invoked f event] [] (Throws e) args'
      | Promised _ s =>
          after_call (Invoked f event) [(f, s)] (forEach h rest args')
      end
  | _ :: rest => forEach h rest args
  end.

Definition combinedCallback (h : handlers) (callbacks : list entry)
    (args : list value) : fired :=
  forEach h callbacks args.

Definition combineCallback (h : handlers) (callbacks : list entry) :
    list value → fired :=
  combinedCallback h callbacks.

(** No function of the list throws synchronously, whatever the event. *)
Definition never_throws (h : handlers) (callbacks : list entry) : Prop :=
  ∀ f v e, Fn f ∈ callbacks → out (h f v) ≠ Throws e.

End Callbacks.

(** ** More readings of a chain and of a series of renders *)

Module ChainReading.
Import EventChain.

(** How many times [setTimeout(execute, 0)] was reached. *)
Fixpoint timers (l : list event) : nat :=
  match l with
  | [] => 0
  | Timer :: l => S (timers l)
  | _ :: l => timers l
  end.

(** [args[0]] is [undefined] (or missing) or [null]. *)
Definition nullish (v : value) : bool :=
  match v with
  | VUndefined | VNull => true
  | _ => false
  end.

(** The event as handler [f], called on [v], leaves it for the next
    entry: after its synchronous part and, when it returned a promise,
    after what it did before that promise settled. *)
Definition left_by (h : handlers) (f : nat) (v : value) : value :=
  match out (h f v) with
  | Promised later _ => touched later (touched (touch (h f v)) v)
  | _ => touched (touch (h f v)) v
  end.

(** Every handler leaves its own number on the event (in the slot the
    object inherits from, so that the chain goes on). *)
Definition each_marks : handlers := λ f _,
  Reaction (λ o, Object (own_defaultPrevented o) (Some (PNum (Z.of_nat f))))
    Returns.

End ChainReading.

(** ** Conditions on the arguments and on the handlers *)

Module ChainConditions.
Import EventChain.

(** The inspection lets an entry run on [event]: [hasOwnProperty] does not
    throw (the event is neither [undefined] nor [null]) and there is no own
    truthy [defaultPrevented]. *)
Definition live (event : value) : bool :=
  match hasOwnProperty_defaultPrevented event with
  | inl _ => false
  | inr own => negb (own && truthy (get_defaultPrevented event))
  end.

(** Every function of the list, called on a live event, returns, or
    returns a promise that fulfils, and hands the event on live. *)
Definition behaves (h : handlers) (callbacks : list entry) : Prop :=
  ∀ f v, Fn f ∈ callbacks → live v = true →
    match out (h f v) with
    | Returns => live (touched (touch (h f v)) v) = true
    | Promised later Fulfils =>
        live (touched later (touched (touch (h f v)) v)) = true
    | _ => False
    end.

(** An event as React builds it: [defaultPrevented] is an own property,
    [false] until [preventDefault()] is called. *)
Definition react_event : value := VObject (Object (Some (PBool false)) None).

(** A native DOM event: [defaultPrevented] is an accessor of
    [Event.prototype], so the object has no own property of that name and
    reads the flag through its prototype. *)
Definition native_event : value := VObject (Object None (Some (PBool false))).

(** [e.preventDefault()] on a native event: the flag read through the
    prototype becomes [true]; no own property appears. *)
Definition native_preventDefault (o : object) : object :=
  Object (own_defaultPrevented o) (Some (PBool true)).

(** Handler 0 calls [e.preventDefault()] on a native event and returns,
    the others return at once. *)
Definition first_prevents_natively : handlers := λ f _,
  Reaction (if decide (f = 0) then native_preventDefault else id) Returns.

(** Handler 0 returns a promise that never settles, the others return at
    once. *)
Definition first_stalls : handlers := λ f _,
  Reaction id (if decide (f = 0) then Promised id NeverSettles else Returns).

End ChainConditions.

Module MemoRuns.
Import Memo.

(** The handlers returned by a series of renders of one hook, the first
    being the mount when [memoizedState] is [None]. *)
Fixpoint renders (use : list reference → option hook → heap → rendered)
    (xss : list (list reference)) (memoizedState : option hook) (H : heap) :
    list reference :=
  match xss with
  | [] => []
  | xs :: xss =>
      let r := use xs memoizedState H in
      handler r :: renders use xss (cell r) (heap_after r)
  end.

(** The state a hook cell is in between two renders: empty before the
    mount, and afterwards remembering one dependency, an array allocated
    earlier. *)
Definition settled_cell (memoizedState : option hook) (H : heap) : Prop :=
  match memoizedState with
  | None => True
  | Some prev => ∃ a, memoizedDeps prev = [RArray a] ∧ a < next H
  end.

End MemoRuns.

(** ** The ref combinator ([combineRefs]) *)

Module Refs.

(** A [Ref<T>]: a callback ref, a ref object (by address), or nothing. *)
Inductive ref :=
  | CallbackRef (f : nat)
  | RefObject (a : nat)
  | NullRef
  | UndefinedRef.

#[global] Instance ref_eq_dec : EqDecision ref.
Proof. solve_decision. Defined.

(** [T | null]: an element, by identity, or [null]. *)
Definition instance := option nat.

(** The ref objects: at each address, the value of the own property
    [current], or [None] when the object has no such own property. *)
Definition store := nat → option instance.

(** [ref.current = instance], made only under
    [Object.prototype.hasOwnProperty.call(ref, "current")]. *)
Definition set_current (a : nat) (i : instance) (s : store) : store :=
  match s a with
  | Some _ => λ b, if decide (b = a) then Some i else s b
  | None => s
  end.

(** A callback ref may write ref objects and may throw. *)
Definition callback_refs := nat → instance → store → store * option error.

Record applied := Applied {
  called : list (nat * instance);
  store_after : store;
  thrown : option error
}.

Definition after_callback (c : nat * instance) (r : applied) : applied :=
  Applied (c :: called r) (store_after r) (thrown r).

(** The body of the function [combineRefs(...refs)] returns. *)
Fixpoint forEach (h : callback_refs) (refs : list ref) (i : instance)
    (s : store) : applied :=
  match refs with
  | [] => Applied [] s None
  | CallbackRef f :: rest =>
      match h f i s with
      | (s', Some e) => Applied [(f, i)] s' (Some e)
      | (s', None) => after_callback (f, i) (forEach h rest i s')
      end
  | RefObject a :: rest => forEach h rest i (set_current a i s)
  | _ :: rest => forEach h rest i s
  end.

Definition combineRefs (h : callback_refs) (refs : list ref) :
    instance → store → applied :=
  forEach h refs.

(** The callback refs of a list, in order. *)
Definition callback_ids (refs : list ref) : list nat :=
  omap (λ r, match r with CallbackRef f => Some f | _ => None end) refs.

(** The callback refs of the list neither throw nor write a ref object. *)
Definition passive (h : callback_refs) (refs : list ref) : Prop :=
  ∀ f i s, CallbackRef f ∈ refs → h f i s = (s, None).

(** The callback refs of the list do not throw. *)
Definition harmless (h : callback_refs) (refs : list ref) : Prop :=
  ∀ f i s, CallbackRef f ∈ refs → (h f i s).2 = None.

(** Sample data: two ref objects from [useRef] (addresses 0 and 1) and a
    plain object without [current] (address 2). *)
Definition two_refs : store := λ a,
  if decide (a = 0) then Some None
  else if decide (a = 1) then Some (Some 5)
  else None.

(** Callback refs that only record the call. *)
Definition recorders : callback_refs := λ _ _ s, (s, None).

(** Callback ref 0 throws, the others only record the call. *)
Definition first_callback_throws : callback_refs := λ f _ s,
  (s, if decide (f = 0) then Some (Thrown 3) else None).

End Refs.

(** ** The media-query hook and the breakpoint selector *)

Module MediaHook.
Import MediaQuery.

(** [handleResize] of [useMediaQuery]: the new state handed to
    [setIsMatch], or [None] when [isEqual] short-circuits the update. *)
Definition handleResize (w : environment) (query : MediaQuery)
    (isMatch : MediaMatchResult) : option MediaMatchResult :=
  let newMatch := matching w query in
  if isEqual isMatch newMatch then None else Some newMatch.

(** The state of the hook after a resize event. *)
Definition after_resize (w : environment) (query : MediaQuery)
    (isMatch : MediaMatchResult) : MediaMatchResult :=
  default isMatch (handleResize w query isMatch).

(** The state after a series of resize events, each with the environment
    it finds. *)
Definition after_resizes (ws : list environment) (query : MediaQuery)
    (isMatch : MediaMatchResult) : MediaMatchResult :=
  foldl (λ st w, after_resize w query st) isMatch ws.

(** The values [useBreakpointValue] takes and returns; a number is given by
    the string it converts to. *)
Inductive jsvalue :=
  | JString (s : string)
  | JNumber (repr : string)
  | JUndefined
  | JNull.

Inductive BreakpointValue :=
  | Plain (v : jsvalue)
  | Sizes (o : record string).

(** [useMediaQuery(size as Record<string, string>)] on the first render:
    the initial state is [matching(size)]. There [typeof size ===
    "object"] holds for [null] too, and [Object.keys(null)] throws; a
    string, a number or [undefined] goes to [safeMatch], where
    [matchMedia] converts it to a string. *)
Definition useMediaQuery_initial (w : environment) (size : BreakpointValue) :
    error + MediaMatchResult :=
  match size with
  | Sizes o => inr (matching w (Named o))
  | Plain JNull => inl TypeError
  | Plain (JString s) => inr (matching w (Single s))
  | Plain (JNumber repr) => inr (matching w (Single repr))
  | Plain JUndefined => inr (matching w (Single "undefined"))
  end.

(** [for (const key in query) if (query[key]) return key;] *)
Fixpoint first_true (rs : record bool) : jsvalue :=
  match rs with
  | [] => JUndefined
  | (key, b) :: rs => if b then JString key else first_true rs
  end.

(** The part of [useBreakpointValue] after the call of the hook; a boolean
    state has no enumerable property to loop over. *)
Definition select (size : BreakpointValue) (query : MediaMatchResult) : jsvalue :=
  match size with
  | Plain v => v
  | Sizes _ =>
      match query with
      | Flags rs => first_true rs
      | Flag _ => JUndefined
      end
  end.

(** [useBreakpointValue(size)] on the first render. *)
Definition useBreakpointValue (w : environment) (size : BreakpointValue) :
    error + jsvalue :=
  match useMediaQuery_initial w size with
  | inl e => inl e
  | inr query => inr (select size query)
  end.

(** The first name of a mapping whose condition holds. *)
Definition first_matching (w : environment) (o : record string) : jsvalue :=
  match list_find (λ kq, safeMatch w kq.2 = true) o with
  | Some (_, (key, _)) => JString key
  | None => JUndefined
  end.

(** The condition strings a query holds. *)
Definition conditions (query : MediaQuery) : list string :=
  match query with
  | Single q => [q]
  | Named o => o.*2
  end.

(** The README's widths: full width on a narrow display, fixed on a wide
    one. *)
Definition widths : record string := [("100%", "narrow"); ("500px", "wide")].

End MediaHook.

(** ** The boolean state container ([useDisclosure]) *)

Module Disclosure.

(** The three controls returned by the hook. *)
Inductive control := open | close | toggle.

(** What a control hands to [setState]: a value, or an updater that
    receives the pending state. *)
Inductive update :=
  | Value (b : bool)
  | Updater (f : bool → bool).

Definition setState_of (c : control) : update :=
  match c with
  | open => Value true
  | close => Value false
  | toggle => Updater negb
  end.

(** React applies queued updates in the order they were requested. *)
Definition reduce (s : bool) (u : update) : bool :=
  match u with
  | Value b => b
  | Updater f => f s
  end.

(** [useDisclosure(initialState = false)]: the state shown after the
    given controls have been used. *)
Definition useDisclosure (initialState : option bool) (used : list control) :
    bool :=
  foldl reduce (default false initialState) (setState_of <$> used).

End Disclosure.

(** ** Properties of the event chain combinator *)

Module EventChainProofs.
Import EventChain.
Import ChainReading ChainConditions.

(** *** The set of callbacks *)

Section first_occurrences.
Context {A : Type} `{EqDecision A}.
Implicit Types l : list A.

Lemma elem_of_first_occurrences l x : x ∈ first_occurrences l ↔ x ∈ l.
Proof.
  induction l as [|y l IH]; simpl; [done|].
  rewrite !elem_of_cons, list_elem_of_filter, IH.
  destruct (decide (x = y)); tauto.
Qed.

Lemma NoDup_first_occurrences l : NoDup (first_occurrences l).
Proof.
  induction l as [|y l IH]; simpl; [constructor|].
  apply NoDup_cons. split.
  - rewrite list_elem_of_filter. tauto.
  - by apply NoDup_filter.
Qed.

End first_occurrences.

Lemma Set_new_from acc l :
  foldl Set_add acc l = acc ++ filter (λ x, x ∉ acc) (first_occurrences l).
Proof.
  revert acc. induction l as [|x l IH]; intros acc; simpl.
  - by rewrite app_nil_r.
  - rewrite IH. unfold Set_add. destruct (decide (x ∈ acc)) as [Hin|Hin].
    + rewrite filter_cons_False by tauto.
      rewrite list_filter_filter. f_equal.
      apply list_filter_iff. intros y. split; [|tauto].
      intros Hy. split; [done|]. intros ->. done.
    + rewrite filter_cons_True by done.
      rewrite <- app_assoc. simpl. do 2 f_equal.
      rewrite list_filter_filter. apply list_filter_iff. intros y.
      rewrite elem_of_app, list_elem_of_singleton. tauto.
Qed.

Lemma Set_new_first_occurrences l : Set_new l = first_occurrences l.
Proof.
  unfold Set_new. rewrite Set_new_from. simpl.
  induction (first_occurrences l) as [|x k IH]; [done|].
  rewrite filter_cons_True by apply not_elem_of_nil. by rewrite IH.
Qed.

Lemma NoDup_Set_new l : NoDup (Set_new l).
Proof. rewrite Set_new_first_occurrences. apply NoDup_first_occurrences. Qed.

Lemma Set_delete_head x s : x ∉ s → Set_delete x (x :: s) = s.
Proof.
  intros Hx. unfold Set_delete. rewrite filter_cons_False by tauto.
  induction s as [|y s IH]; [done|].
  apply not_elem_of_cons in Hx as [Hne Hx].
  rewrite filter_cons_True by done. by rewrite IH.
Qed.

Lemma functions_cons c l :
  functions (c :: l) =
  match c with Fn f => f :: functions l | _ => functions l end.
Proof. by destruct c. Qed.

Lemma functions_filter f l :
  functions (filter (λ y, y ≠ Fn f) l) = filter (λ g, g ≠ f) (functions l).
Proof.
  induction l as [|c l IH]; [done|].
  rewrite functions_cons. destruct c as [g| |].
  - destruct (decide (g = f)) as [->|Hne].
    + rewrite !filter_cons_False by tauto. done.
    + rewrite !filter_cons_True by congruence.
      by rewrite functions_cons, IH.
  - rewrite filter_cons_True by done. by rewrite functions_cons.
  - rewrite filter_cons_True by done. by rewrite functions_cons.
Qed.

Lemma functions_filter_absent c l :
  is_callable c = false → functions (filter (λ y, y ≠ c) l) = functions l.
Proof.
  intros Hc. induction l as [|d l IH]; [done|].
  destruct (decide (d = c)) as [->|Hne].
  - rewrite filter_cons_False by tauto. rewrite functions_cons. by destruct c.
  - rewrite filter_cons_True by done. rewrite !functions_cons, IH. done.
Qed.

Lemma functions_first_occurrences l :
  functions (first_occurrences l) = first_occurrences (functions l).
Proof.
  induction l as [|c l IH]; [done|].
  cbn [first_occurrences]. rewrite !functions_cons. destruct c as [f| |].
  - cbn [first_occurrences]. by rewrite functions_filter, IH.
  - by rewrite functions_filter_absent.
  - by rewrite functions_filter_absent.
Qed.

Lemma elem_of_functions f l : f ∈ functions l ↔ Fn f ∈ l.
Proof.
  unfold functions. rewrite list_elem_of_omap. split.
  - intros (c & Hc & Heq). destruct c; naive_solver.
  - intros Hf. by exists (Fn f).
Qed.

(** *** [drain] on a duplicate-free set *)

(** The cases of [execute] on a function entry: the inspection throws, the
    event is cancelled, or the handler is called and ends in one of five
    ways. *)
Ltac execute_cases h f args :=
  destruct (hasOwnProperty_defaultPrevented (first_arg args)) as [?e|?own];
  [|destruct (_ && truthy (get_defaultPrevented (first_arg args)));
    [|destruct (out (h f (first_arg args))) as [|?e|?later [|?e|]] eqn:?Hout]].

Lemma first_arg_set v args :
  first_arg (set_first_arg (touched v (first_arg args)) args)
  = touched v (first_arg args).
Proof. by destruct args. Qed.

Lemma drain_sequence h s args fuel :
  NoDup s → length s < fuel → drain fuel h (State s args) = sequence h s args.
Proof.
  revert args fuel. induction s as [|c s IH]; intros args fuel Hnd Hlen.
  - destruct fuel; [simpl in Hlen; lia|done].
  - destruct fuel as [|fuel]; [simpl in Hlen; lia|].
    apply NoDup_cons in Hnd as [Hc Hnd]. simpl in Hlen.
    assert (Hfuel : length s < fuel) by lia.
    cbn [drain]. unfold execute. cbn [uniqueCallbacks EventChain.args].
    rewrite (Set_delete_head c s Hc).
    destruct c as [f| |]; cbn [sequence].
    + execute_cases h f args; try done.
      * by rewrite IH.
      * unfold later_state. cbn [uniqueCallbacks EventChain.args].
        by rewrite IH.
    + by rewrite IH.
    + by rewrite IH.
Qed.

(** The chain of an invocation, as a recursion on the distinct callbacks
    in first-occurrence order. *)
Lemma chain_sequence h callbacks args :
  chain (combinedCallback h callbacks args)
  = sequence h (first_occurrences callbacks) args.
Proof.
  unfold combinedCallback. cbn [chain].
  rewrite drain_sequence.
  - by rewrite Set_new_first_occurrences.
  - apply NoDup_Set_new.
  - unfold Set_size. lia.
Qed.

(** What the caller gets back is decided by the first [execute()]. *)
Lemma returned_first h callbacks args :
  returned (combinedCallback h callbacks args) =
  match first_occurrences callbacks with
  | Fn _ :: _ =>
      match hasOwnProperty_defaultPrevented (first_arg args) with
      | inl e => Throws e
      | inr _ => Returns
      end
  | _ => Returns
  end.
Proof.
  unfold combinedCallback. cbn [returned]. unfold execute.
  cbn [uniqueCallbacks EventChain.args].
  rewrite Set_new_first_occurrences.
  destruct (first_occurrences callbacks) as [|[f| |] s]; try done.
  destruct (hasOwnProperty_defaultPrevented (first_arg args)) as [e|own];
    [done|].
  by destruct (own && truthy (get_defaultPrevented (first_arg args))).
Qed.

(** *** Runs that complete *)

Lemma calls_app l k : calls (l ++ k) = calls l ++ calls k.
Proof. apply omap_app. Qed.

Lemma sequence_fuel h s args : ending_of (sequence h s args) ≠ OutOfFuel.
Proof.
  revert args. induction s as [|c s IH]; intros args; [done|].
  destruct c as [f| |]; cbn [sequence]; [|apply IH..].
  execute_cases h f args; try done; apply IH.
Qed.

Lemma sequence_completed h s args :
  ending_of (sequence h s args) = Completed →
  calls (log (sequence h s args)) = functions s
  ∧ one_at_a_time (log (sequence h s args)) = true.
Proof.
  revert args. induction s as [|c s IH]; intros args; [done|].
  rewrite functions_cons.
  destruct c as [f| |]; cbn [sequence]; [|apply IH..].
  execute_cases h f args; try done.
  - cbn [logged ending_of log]. intros [Hc Ho]%IH.
    rewrite calls_app, Hc. split; [done|].
    cbn [app one_at_a_time]. by rewrite Ho, bool_decide_eq_true_2.
  - cbn [logged ending_of log]. intros [Hc Ho]%IH.
    rewrite calls_app, Hc. split; [done|].
    cbn [app one_at_a_time]. by rewrite Ho, bool_decide_eq_true_2.
Qed.

(** *** Runs that stop early *)

Lemma drain_cancelled fuel h st :
  cancelled (first_arg (args st)) = true →
  calls (log (drain fuel h st)) = []
  ∧ (∀ e, ending_of (drain fuel h st) ≠ Raised e)
  ∧ (∀ e, ending_of (drain fuel h st) ≠ Rejected e)
  ∧ ending_of (drain fuel h st) ≠ Stalled.
Proof.
  revert st. induction fuel as [|fuel IH]; intros [s a] Hc; [done|].
  cbn [drain]. unfold execute. cbn [uniqueCallbacks args] in *.
  destruct s as [|c s]; [done|].
  destruct c as [f| |].
  - unfold cancelled in Hc.
    destruct (hasOwnProperty_defaultPrevented (first_arg a)) as [e|own];
      [done|].
    by rewrite Hc.
  - cbn [logged log ending_of]. rewrite calls_app. by apply IH.
  - cbn [logged log ending_of]. rewrite calls_app. by apply IH.
Qed.

Lemma sequence_fail_fast h s args l1 f v l2 e :
  log (sequence h s args) = l1 ++ Invoked f v :: l2 →
  fails_with (out (h f v)) e →
  l2 = [] ∧ ending_of (sequence h s args) = Rejected e.
Proof.
  unfold fails_with.
  revert args l1. induction s as [|c s IH]; intros args l1.
  { by destruct l1. }
  destruct c as [g| |]; cbn [sequence].
  - destruct (hasOwnProperty_defaultPrevented (first_arg args)) as [e'|own].
    { by destruct l1. }
    destruct (own && truthy (get_defaultPrevented (first_arg args))).
    { by destruct l1. }
    destruct (out (h g (first_arg args))) as [|e'|later [|e'|]] eqn:Hout;
      cbn [logged log ending_of app].
    + destruct l1 as [|? [|? [|? l1]]]; intros Hl Hf; simplify_eq/=.
      * rewrite Hout in Hf. by destruct Hf as [?|[? ?]]; simplify_eq.
      * by eapply IH.
    + destruct l1 as [|? [|? l1]]; intros Hl Hf; simplify_eq/=.
      rewrite Hout in Hf. by destruct Hf as [?|[? ?]]; simplify_eq.
    + destruct l1 as [|? [|? [|? l1]]]; intros Hl Hf; simplify_eq/=.
      * rewrite Hout in Hf. by destruct Hf as [?|[? ?]]; simplify_eq.
      * by eapply IH.
    + destruct l1 as [|? [|? l1]]; intros Hl Hf; simplify_eq/=.
      rewrite Hout in Hf. by destruct Hf as [?|[? ?]]; simplify_eq.
    + destruct l1 as [|? [|? l1]]; intros Hl Hf; simplify_eq/=.
      rewrite Hout in Hf. by destruct Hf as [?|[? ?]]; simplify_eq.
  - destruct l1 as [|? l1]; intros Hl Hf; simplify_eq/=. by eapply IH.
  - destruct l1 as [|? l1]; intros Hl Hf; simplify_eq/=. by eapply IH.
Qed.

(** *** Runs on an event without an own flag *)

Lemma keeps_no_own_flag_tail h c s :
  keeps_no_own_flag h (c :: s) → keeps_no_own_flag h s.
Proof. intros Hk f v Hf. apply Hk. by right. Qed.

Lemma sequence_never_cancelled h s args :
  keeps_no_own_flag h s → no_own_flag (first_arg args) →
  ending_of (sequence h s args) ≠ Cancelled
  ∧ ∀ e, ending_of (sequence h s args) ≠ Raised e.
Proof.
  revert args. induction s as [|c s IH]; intros args Hk Hv; [done|].
  pose proof (keeps_no_own_flag_tail _ _ _ Hk) as Hk'.
  destruct c as [f| |]; cbn [sequence]; [|by apply IH..].
  destruct (Hk f (first_arg args)) as [Ht Hl]; [by left|done|].
  rewrite Hv. cbn [andb].
  destruct (out (h f (first_arg args))) as [|e|later [|e|]] eqn:Hout;
    cbn [logged log ending_of]; try done.
  - apply IH; [done|]. by rewrite first_arg_set.
  - apply IH; [done|]. rewrite !first_arg_set. by eapply Hl.
Qed.

Lemma sequence_absent h s args :
  (∀ c, c ∈ s → is_callable c = false) →
  log (sequence h s args) = replicate (length s) Timer
  ∧ ending_of (sequence h s args) = Completed.
Proof.
  induction s as [|c s IH]; intros Hs; [done|].
  assert (Hc : is_callable c = false) by (apply Hs; by left).
  destruct IH as [IHl IHe]; [intros d Hd; apply Hs; by right|].
  destruct c as [f| |]; [done|..]; cbn [sequence logged log ending_of];
    by rewrite IHl, IHe.
Qed.

Lemma sequence_cancelled h s args :
  cancelled (first_arg args) = true →
  calls (log (sequence h s args)) = []
  ∧ (ending_of (sequence h s args) = Cancelled
     ∨ ending_of (sequence h s args) = Completed).
Proof.
  intros Hc. induction s as [|c s IH]; [by split; [|right]|].
  destruct c as [f| |]; cbn [sequence]; [|done..].
  unfold cancelled in Hc.
  destruct (hasOwnProperty_defaultPrevented (first_arg args)) as [e|own];
    [done|].
  rewrite Hc. by split; [|left].
Qed.

Lemma calls_replicate_Timer n : calls (replicate n Timer) = [].
Proof. by induction n. Qed.

Lemma absent_entries_at_most_two (s : list entry) :
  NoDup s → (∀ c, c ∈ s → is_callable c = false) → length s ≤ 2.
Proof.
  intros Hnd Hs.
  change 2 with (length [Null; Undefined]).
  apply submseteq_length, NoDup_submseteq; [done|].
  intros c Hc. specialize (Hs c Hc).
  destruct c; [done|by left|by right; left].
Qed.

Lemma sequence_unobstructed h s args :
  uninterrupted (sequence h s args) = true →
  settled (sequence h s args) = true →
  ending_of (sequence h s args) = Completed.
Proof.
  unfold uninterrupted, settled. intros Hu Hs.
  pose proof (sequence_fuel h s args).
  by destruct (ending_of _).
Qed.

(** *** The scenarios of the specification *)

Example combine_h1_h1_h2 :
  calls (log (chain (combineEvents quiet [Fn 1; Fn 1; Fn 2] [plain_event])))
  = [1; 2].
Proof. reflexivity. Qed.

Example combine_no_handler :
  combineEvents quiet [] [] = Invocation Returns (Run [] Completed (State [] [])).
Proof. reflexivity. Qed.

Example combine_a_b_c :
  log (chain (combineEvents one_async [Fn 0; Fn 1; Fn 2] [plain_event]))
  = [Invoked 0 plain_event; Awaited 0; Timer;
     Invoked 1 plain_event; Awaited 1; Timer;
     Invoked 2 plain_event; Awaited 2; Timer].
Proof. reflexivity. Qed.

Example combine_rejecting_first :
  calls (log (chain (combineEvents first_rejects [Fn 0; Fn 1] [plain_event])))
  = [0]
  ∧ ending_of (chain (combineEvents first_rejects [Fn 0; Fn 1] [plain_event]))
    = Rejected (Thrown 7).
Proof. split; reflexivity. Qed.

(** *** The claims about [combineEvents] *)

Lemma behaves_tail h c s : behaves h (c :: s) → behaves h s.
Proof. intros Hb f v Hf. apply Hb. by right. Qed.

Lemma sequence_behaves h s args :
  behaves h s → live (first_arg args) = true →
  ending_of (sequence h s args) = Completed.
Proof.
  revert args. induction s as [|c s IH]; intros args Hb Hl; [done|].
  pose proof (behaves_tail _ _ _ Hb) as Hb'.
  destruct c as [f| |]; cbn [sequence]; [|by apply IH..].
  specialize (Hb f (first_arg args) ltac:(by left) Hl).
  unfold live in Hl.
  destruct (hasOwnProperty_defaultPrevented (first_arg args)) as [e|own];
    [done|].
  destruct (own && truthy (get_defaultPrevented (first_arg args))); [done|].
  destruct (out (h f (first_arg args))) as [|e|later [|e|]]; try done;
    cbn [logged ending_of]; apply IH; by rewrite ?first_arg_set.
Qed.

(** C4, as stated, fails: an invocation can be free of cancellation and of
    failure and still leave a handler uninvoked. When the first handler
    returns a promise that never settles, nothing is cancelled, nothing
    throws or rejects, and the second handler is never invoked; and when
    the combined handler is called without argument, no handler fails and
    nothing is cancelled, yet no handler is invoked at all. *)
Lemma combineEvents_unsettled_counterexample :
  (uninterrupted (chain (combineEvents first_stalls [Fn 0; Fn 1] [plain_event]))
   = true
   ∧ returned (combineEvents first_stalls [Fn 0; Fn 1] [plain_event]) = Returns
   ∧ (∀ f v e, ¬ fails_with (out (first_stalls f v)) e)
   ∧ calls (log (chain (combineEvents first_stalls [Fn 0; Fn 1] [plain_event])))
     = [0]
   ∧ 1 ∉ calls (log (chain (combineEvents first_stalls [Fn 0; Fn 1]
                               [plain_event]))))
  ∧ ((∀ f v e, ¬ fails_with (out (quiet f v)) e)
     ∧ cancelled (first_arg []) = false
     ∧ calls (log (chain (combineEvents quiet [Fn 0; Fn 1] []))) = []).
Proof.
  split; split_and!; try reflexivity.
  - intros f v e. unfold first_stalls. cbn.
    destruct (decide (f = 0)); by intros [?|[? ?]].
  - by intros [[=]|[]%not_elem_of_nil]%elem_of_cons.
  - intros f v e. by intros [?|[? ?]].
Qed.

(** C4, amended. Whatever the list of handler references (duplicates,
    [null] and [undefined] included): when the first argument is an object
    or a primitive without an own truthy [defaultPrevented], and every
    function of the list, called on such an event, returns or returns a
    promise that fulfils, and leaves the event without an own truthy
    [defaultPrevented], the invocation returns normally and runs to
    completion; the handlers invoked are the distinct function references
    in order of first occurrence, each exactly once, absent entries being
    skipped, and each invocation is followed by the fulfilment of its own
    result before the next handler starts. *)
Theorem combineEvents_runs_each_handler_once h callbacks args :
  live (first_arg args) = true →
  behaves h callbacks →
  returned (combineEvents h callbacks args) = Returns
  ∧ ending_of (chain (combineEvents h callbacks args)) = Completed
  ∧ calls (log (chain (combineEvents h callbacks args)))
    = first_occurrences (functions callbacks)
  ∧ NoDup (calls (log (chain (combineEvents h callbacks args))))
  ∧ (∀ f, f ∈ calls (log (chain (combineEvents h callbacks args)))
          ↔ Fn f ∈ callbacks)
  ∧ one_at_a_time (log (chain (combineEvents h callbacks args))) = true.
Proof.
  intros Hl Hb. unfold combineEvents. rewrite chain_sequence, returned_first.
  assert (Hb' : behaves h (first_occurrences callbacks)).
  { intros f v Hf. apply Hb. by apply elem_of_first_occurrences. }
  pose proof (sequence_behaves _ _ _ Hb' Hl) as Hend.
  destruct (sequence_completed _ _ _ Hend) as [Hcalls Hone].
  rewrite Hcalls, functions_first_occurrences.
  split_and!; [|done|done|apply NoDup_first_occurrences| |done].
  - unfold live in Hl.
    destruct (hasOwnProperty_defaultPrevented (first_arg args)); [done|].
    by destruct (first_occurrences callbacks) as [|[]].
  - intros f. by rewrite elem_of_first_occurrences, elem_of_functions.
Qed.

Lemma one_async_behaves callbacks : behaves one_async callbacks.
Proof.
  intros f v _ Hl. unfold one_async. cbn.
  destruct (decide (f = 1)); by destruct v.
Qed.

Lemma combineEvents_runs_each_handler_once_witness :
  live (first_arg [react_event]) = true
  ∧ ending_of (chain (combineEvents one_async [Fn 1; Fn 1; Null; Fn 2]
                        [react_event]))
    = Completed
  ∧ calls (log (chain (combineEvents one_async [Fn 1; Fn 1; Null; Fn 2]
                         [react_event])))
    = [1; 2].
Proof.
  split; [reflexivity|].
  destruct (combineEvents_runs_each_handler_once one_async
              [Fn 1; Fn 1; Null; Fn 2] [react_event] eq_refl
              (one_async_behaves _)) as (_ & Hend & Hcalls & _).
  exact (conj Hend Hcalls).
Defined.

(** C1, as stated, fails: the handler built by [combineEvents] returns
    [undefined], not a promise. With a first handler that throws, the
    caller receives no rejection to observe. *)
Lemma combineEvents_rejection_counterexample :
  (log (chain (combineEvents first_throws [Fn 0; Fn 1] [plain_event]))
   = [Invoked 0 plain_event]
   ∧ fails_with (out (first_throws 0 plain_event)) (Thrown 7)
   ∧ ¬ rejects_with
         (returned (combineEvents first_throws [Fn 0; Fn 1] [plain_event]))
         (Thrown 7))
  ∧ (log (chain (combineEvents first_rejects [Fn 0; Fn 1] [plain_event]))
     = [Invoked 0 plain_event]
     ∧ fails_with (out (first_rejects 0 plain_event)) (Thrown 7)
     ∧ ¬ rejects_with
           (returned (combineEvents first_rejects [Fn 0; Fn 1] [plain_event]))
           (Thrown 7)).
Proof.
  split; (split_and!; [reflexivity|by (left + (right; eexists))|]);
    intros [later Hr]; vm_compute in Hr; discriminate Hr.
Qed.

(** C1, amended. If an entry that is invoked throws, or returns a promise
    that rejects, with error [e], then nothing is invoked after it in that
    invocation, and the promise the combinator built around that call
    rejects with [e]; the combined handler itself has already returned
    [undefined] to its caller, so the rejection stays inside the chain. *)
Theorem combineEvents_fail_fast h callbacks args l1 f v l2 e :
  log (chain (combineEvents h callbacks args)) = l1 ++ Invoked f v :: l2 →
  fails_with (out (h f v)) e →
  l2 = []
  ∧ ending_of (chain (combineEvents h callbacks args)) = Rejected e
  ∧ returned (combineEvents h callbacks args) = Returns.
Proof.
  unfold combineEvents. rewrite chain_sequence, returned_first.
  intros Hlog Hf.
  destruct (sequence_fail_fast _ _ _ _ _ _ _ _ Hlog Hf) as [-> Hend].
  split_and!; [done..|].
  destruct (first_occurrences callbacks) as [|[g| |] s]; try done.
  cbn [sequence] in Hlog.
  destruct (hasOwnProperty_defaultPrevented (first_arg args)); [|done].
  by destruct l1.
Qed.

Lemma combineEvents_fail_fast_witness :
  fails_with (out (first_throws 0 plain_event)) (Thrown 7)
  ∧ ending_of (chain (combineEvents first_throws [Fn 0; Fn 1] [plain_event]))
    = Rejected (Thrown 7).
Proof.
  split; [by left|].
  apply (combineEvents_fail_fast first_throws [Fn 0; Fn 1] [plain_event]
           [] 0 plain_event []); [reflexivity|by left].
Defined.



Lemma quiet_keeps_no_own_flag callbacks : keeps_no_own_flag quiet callbacks.
Proof. intros f v _ Hv. split; [by destruct v|intros later s Hs; discriminate Hs]. Qed.


(** C5, on the code. On a native DOM event [defaultPrevented] is read
    through the prototype. After the first handler has called
    [e.preventDefault()], [event.defaultPrevented] reads [true] when the
    second entry is about to be invoked, and the second handler is invoked
    all the same: the chain runs to completion. *)
Theorem combineEvents_runs_on_after_native_preventDefault :
  truthy (get_defaultPrevented native_event) = false
  ∧ truthy (get_defaultPrevented
              (left_by first_prevents_natively 0 native_event)) = true
  ∧ log (chain (combineEvents first_prevents_natively [Fn 0; Fn 1]
                  [native_event]))
    = [Invoked 0 native_event; Awaited 0; Timer;
       Invoked 1 (left_by first_prevents_natively 0 native_event);
       Awaited 1; Timer]
  ∧ ending_of (chain (combineEvents first_prevents_natively [Fn 0; Fn 1]
                        [native_event]))
    = Completed.
Proof. split_and!; reflexivity. Qed.

(** X18. Once [args[0]] carries an own truthy [defaultPrevented] when
    [execute] is about to invoke an entry, nothing more is invoked in that
    invocation and nothing is thrown or rejected. In particular, when the
    first handler puts an own truthy [defaultPrevented] on the event in
    its synchronous part (and does not withdraw it before the promise it
    may have returned settles), no other handler of the list is ever
    invoked and the inspection throws nothing; when that handler simply
    returns, the chain ends there without any error. *)
Theorem combineEvents_stops_when_cancelled fuel h st h1 rest args0 :
  (cancelled (first_arg (args st)) = true →
   calls (log (drain fuel h st)) = []
   ∧ (∀ e, ending_of (drain fuel h st) ≠ Raised e)
   ∧ (∀ e, ending_of (drain fuel h st) ≠ Rejected e))
  ∧ (cancelled (touched (touch (h h1 (first_arg args0))) (first_arg args0))
     = true →
     (∀ later s, out (h h1 (first_arg args0)) = Promised later s →
        cancelled (touched later
                     (touched (touch (h h1 (first_arg args0)))
                        (first_arg args0))) = true) →
     (∀ h2, h2 ≠ h1 →
        h2 ∉ calls (log (chain (combineEvents h (Fn h1 :: rest) args0))))
     ∧ returned (combineEvents h (Fn h1 :: rest) args0) = Returns
     ∧ (∀ e, ending_of (chain (combineEvents h (Fn h1 :: rest) args0))
             ≠ Raised e)
     ∧ (out (h h1 (first_arg args0)) = Returns →
        ending_of (chain (combineEvents h (Fn h1 :: rest) args0)) = Cancelled
        ∨ ending_of (chain (combineEvents h (Fn h1 :: rest) args0))
          = Completed)).
Proof.
  split.
  { intros Hc. destruct (drain_cancelled fuel h st Hc) as (?&?&?&?). done. }
  intros Hc Hlater. unfold combineEvents.
  rewrite chain_sequence, returned_first.
  cbn [first_occurrences sequence].
  assert (Hobj : ∃ own, hasOwnProperty_defaultPrevented (first_arg args0)
                        = inr own) by (destruct (first_arg args0); by eauto).
  destruct Hobj as [own ->].
  destruct (own && truthy (get_defaultPrevented (first_arg args0))).
  { split_and!; [|done|done|by left]. intros h2 _. apply not_elem_of_nil. }
  set (s := filter _ _). set (args1 := set_first_arg _ _).
  assert (Hone : ∀ h2, h2 ≠ h1 → h2 ∉ [h1])
    by (intros h2 Hne; by rewrite list_elem_of_singleton).
  destruct (out (h h1 (first_arg args0))) as [|e|later [|e|]] eqn:Hout;
    cbn [logged log ending_of]; try (split_and!; [apply Hone|done..]).
  - destruct (sequence_cancelled h s args1) as [Hcalls Hend].
    { unfold args1. by rewrite first_arg_set. }
    rewrite calls_app, Hcalls.
    split_and!; [apply Hone|done| |done]. by destruct Hend as [-> | ->].
  - set (args2 := set_first_arg _ args1).
    destruct (sequence_cancelled h s args2) as [Hcalls Hend].
    { unfold args2, args1. rewrite !first_arg_set. by eapply Hlater. }
    rewrite calls_app, Hcalls.
    split_and!; [apply Hone|done| |done]. by destruct Hend as [-> | ->].
Qed.

Lemma combineEvents_stops_when_cancelled_witness :
  cancelled (touched (touch (first_prevents 0 plain_event)) plain_event) = true
  ∧ calls (log (chain (combineEvents first_prevents [Fn 0; Fn 1] [plain_event])))
    = [0]
  ∧ 1 ∉ calls (log (chain (combineEvents first_prevents [Fn 0; Fn 1]
                              [plain_event]))).
Proof.
  split_and!; [reflexivity|reflexivity|].
  apply (proj2 (combineEvents_stops_when_cancelled 0 first_prevents
                  (State [] []) 0 [Fn 1] [plain_event]));
    [reflexivity|intros later s Hs; discriminate Hs|lia].
Defined.

(** C9. With an empty list, or a list of [null] and [undefined] only, the
    combined handler returns to its caller at once without throwing,
    whatever the arguments; no handler is ever invoked, and the chain
    completes after the empty timer steps that discard the absent entries
    (none for the empty list, at most two otherwise). *)
Theorem combineEvents_nothing_to_run h callbacks args :
  Forall (λ c, is_callable c = false) callbacks →
  returned (combineEvents h callbacks args) = Returns
  ∧ calls (log (chain (combineEvents h callbacks args))) = []
  ∧ ending_of (chain (combineEvents h callbacks args)) = Completed
  ∧ log (chain (combineEvents h callbacks args))
    = replicate (length (first_occurrences callbacks)) Timer
  ∧ length (log (chain (combineEvents h callbacks args))) ≤ 2
  ∧ (callbacks = [] → log (chain (combineEvents h callbacks args)) = []).
Proof.
  rewrite Forall_forall. intros Habs.
  assert (Habs' : ∀ c, c ∈ first_occurrences callbacks → is_callable c = false).
  { intros c Hc. by apply Habs, elem_of_first_occurrences. }
  unfold combineEvents. rewrite chain_sequence, returned_first.
  destruct (sequence_absent h _ args Habs') as [-> ->].
  rewrite calls_replicate_Timer, length_replicate.
  split_and!; try done.
  - destruct (first_occurrences callbacks) as [|[f| |] s]; try done.
    by specialize (Habs' (Fn f) ltac:(by left)).
  - apply absent_entries_at_most_two; [apply NoDup_first_occurrences|done].
  - by intros ->.
Qed.

Lemma combineEvents_nothing_to_run_witness :
  Forall (λ c, is_callable c = false) [Null; Undefined; Null]
  ∧ returned (combineEvents first_throws [Null; Undefined; Null] []) = Returns
  ∧ calls (log (chain (combineEvents first_throws [Null; Undefined; Null] [])))
    = [].
Proof.
  assert (H : Forall (λ c, is_callable c = false) [Null; Undefined; Null])
    by (repeat constructor).
  split; [exact H|].
  destruct (combineEvents_nothing_to_run first_throws [Null; Undefined; Null]
              [] H) as (Hret & Hcalls & _).
  exact (conj Hret Hcalls).
Defined.

(** C10. The inspection looks at the own [defaultPrevented] of [args[0]]
    only. When the event merely inherits a truthy [defaultPrevented]
    (reading [event.defaultPrevented] gives a truthy value, but the object
    has no such own property), an entry about to be invoked is invoked all
    the same; and as long as no handler puts the property on the object
    itself the chain is never cancelled, so that, failures and unsettled
    results apart, every distinct handler runs. *)
Theorem combineEvents_inherited_flag h callbacks args o f s :
  first_arg args = VObject o →
  own_defaultPrevented o = None →
  truthy (default PUndefined (inherited_defaultPrevented o)) = true →
  keeps_no_own_flag h callbacks →
  truthy (get_defaultPrevented (first_arg args)) = true
  ∧ cancelled (first_arg args) = false
  ∧ (∃ st', execute h (State (Fn f :: s) args)
            = Call f (VObject o) (out (h f (VObject o))) st')
  ∧ returned (combineEvents h callbacks args) = Returns
  ∧ ending_of (chain (combineEvents h callbacks args)) ≠ Cancelled
  ∧ (uninterrupted (chain (combineEvents h callbacks args)) = true →
     settled (chain (combineEvents h callbacks args)) = true →
     calls (log (chain (combineEvents h callbacks args)))
     = first_occurrences (functions callbacks)).
Proof.
  intros Harg Hown Hinh Hk.
  assert (Hv : no_own_flag (first_arg args)).
  { rewrite Harg. unfold no_own_flag. cbn. by rewrite Hown. }
  assert (Hk' : keeps_no_own_flag h (first_occurrences callbacks)).
  { intros g v Hg. apply Hk. by apply elem_of_first_occurrences. }
  destruct (sequence_never_cancelled _ _ _ Hk' Hv) as [Hc Hr].
  unfold combineEvents. rewrite chain_sequence, returned_first.
  split_and!.
  - rewrite Harg. cbn. by rewrite Hown.
  - unfold cancelled. by rewrite Hv.
  - unfold execute. cbn [uniqueCallbacks EventChain.args].
    rewrite Hv. cbn [andb]. rewrite Harg. by eexists.
  - rewrite Hv. by destruct (first_occurrences callbacks) as [|[]].
  - done.
  - intros Hu Hs.
    pose proof (sequence_unobstructed _ _ _ Hu Hs) as Hend.
    destruct (sequence_completed _ _ _ Hend) as [-> _].
    apply functions_first_occurrences.
Qed.

Lemma combineEvents_inherited_flag_witness :
  truthy (get_defaultPrevented inheriting_event) = true
  ∧ calls (log (chain (combineEvents quiet [Fn 0; Fn 1] [inheriting_event])))
    = [0; 1].
Proof.
  split; [reflexivity|].
  apply (combineEvents_inherited_flag quiet [Fn 0; Fn 1] [inheriting_event]
           (Object None (Some (PBool true))) 0 []);
    [reflexivity|reflexivity|reflexivity|apply quiet_keeps_no_own_flag
    |reflexivity|reflexivity].
Defined.


End EventChainProofs.

(** ** Properties of the memoized wrappers *)

Module MemoProofs.
Import Memo.

Lemma fresh_dependency_differs a n rest prevDeps :
  a < n → areHookInputsEqual (RArray n :: rest) (RArray a :: prevDeps) = false.
Proof.
  intros Hlt. cbn [areHookInputsEqual]. unfold Object_is.
  rewrite bool_decide_eq_false_2; [done|]. intros [= ->]. lia.
Qed.

(** A re-render whose remembered dependency is an array allocated earlier
    always builds a new function object. *)
Lemma useCombineEvents_recomputes callbacks prev H a prevDeps :
  memoizedDeps prev = RArray a :: prevDeps → a < next H →
  handler (useCombineEvents callbacks (Some prev) H)
  = RFunction (S (S (next H))).
Proof.
  intros Hdeps Hlt. unfold useCombineEvents, useMemo. cbn [alloc_array].
  by rewrite Hdeps, fresh_dependency_differs.
Qed.

Lemma useCombineRefs_recomputes refs prev H a prevDeps :
  memoizedDeps prev = RArray a :: prevDeps → a < next H →
  handler (useCombineRefs refs (Some prev) H) = RFunction (S (S (next H))).
Proof.
  intros Hdeps Hlt. unfold useCombineRefs, useMemo. cbn [alloc_array].
  by rewrite Hdeps, fresh_dependency_differs.
Qed.

(** C2, on the code. Two successive renders with the very same callbacks
    (or refs) do not return the same handler: the dependency handed to
    [useMemo] is the rest array, which is a new array at every call, so the
    second render recomputes and returns a function object that did not
    exist at the first one. *)
Theorem useCombine_recomputes_every_render xs H :
  handler (snd (render_twice useCombineEvents xs H))
  ≠ handler (fst (render_twice useCombineEvents xs H))
  ∧ handler (snd (render_twice useCombineRefs xs H))
    ≠ handler (fst (render_twice useCombineRefs xs H)).
Proof.
  unfold render_twice. cbn [fst snd]. split.
  - unfold useCombineEvents at 2.
    cbn [alloc_array useMemo recompute combineEvents alloc_closure next
         handler cell heap_after].
    erewrite useCombineEvents_recomputes; [|done|cbn; lia].
    cbn. intros [= Heq]. lia.
  - unfold useCombineRefs at 2.
    cbn [alloc_array useMemo recompute combineRefs alloc_closure next
         handler cell heap_after].
    erewrite useCombineRefs_recomputes; [|done|cbn; lia].
    cbn. intros [= Heq]. lia.
Qed.

(** The same on one handler [h1] rendered twice from an empty heap. *)
Example useCombineEvents_same_callback_twice :
  handler (fst (render_twice useCombineEvents [RFunction 0] one_handler_heap))
  = RFunction 3
  ∧ handler (snd (render_twice useCombineEvents [RFunction 0] one_handler_heap))
    = RFunction 6.
Proof. split; reflexivity. Qed.

End MemoProofs.

(** ** Properties of the media-query evaluator *)

Module MediaQueryProofs.
Import MediaQuery.

(** *** Own properties *)

Section records.
Context {V : Type}.
Implicit Types o : record V.

Lemma own_Some_elem o key v : own o key = Some v → (key, v) ∈ o.
Proof.
  induction o as [|[k w] o IH]; [done|]. cbn [own].
  destruct (decide (k = key)) as [->|Hne].
  - intros [= ->]. by left.
  - intros Ho. right. by apply IH.
Qed.

Lemma own_is_Some o key : is_Some (own o key) ↔ key ∈ Object_keys o.
Proof.
  unfold Object_keys. induction o as [|[k w] o IH].
  - split; [by intros [? ?]|by intros ?%not_elem_of_nil].
  - cbn [own fmap list_fmap fst]. rewrite elem_of_cons.
    destruct (decide (k = key)) as [->|Hne].
    + split; [by left|by eauto].
    + rewrite IH. split; [by right|]. by intros [->|?].
Qed.

Lemma own_None o key : own o key = None ↔ key ∉ Object_keys o.
Proof. by rewrite <- own_is_Some, eq_None_not_Some. Qed.

Lemma own_elem_of o key v :
  NoDup (Object_keys o) → (key, v) ∈ o → own o key = Some v.
Proof.
  unfold Object_keys. induction o as [|[k w] o IH]; intros Hnd Hin.
  - by apply not_elem_of_nil in Hin.
  - cbn [fmap list_fmap fst] in Hnd. apply NoDup_cons in Hnd as [Hk Hnd].
    cbn [own]. apply elem_of_cons in Hin as [[= <- <-]|Hin].
    + by rewrite decide_True.
    + rewrite decide_False; [by apply IH|].
      intros ->. apply Hk. by apply (list_elem_of_fmap_2 fst) in Hin.
Qed.

Lemma own_Permutation o1 o2 key :
  NoDup (Object_keys o1) → o1 ≡ₚ o2 → own o1 key = own o2 key.
Proof.
  intros Hnd Hp.
  assert (Hnd2 : NoDup (Object_keys o2)).
  { unfold Object_keys in *. by rewrite <- Hp. }
  apply option_eq. intros v. split; intros Ho.
  - apply own_elem_of; [done|]. rewrite <- Hp. by apply own_Some_elem.
  - apply own_elem_of; [done|]. rewrite Hp. by apply own_Some_elem.
Qed.

End records.

(** *** [safeMatch] *)

(** C6. Whatever the condition string, [safeMatch] returns a boolean and
    nothing is thrown out of it: it answers [false] when there is no
    [window], when [window] has no own [matchMedia], and whenever the body
    of its [try] block throws, for any error; when the capability is there
    and the query goes through, it answers what the environment
    answered. *)
Theorem safeMatch_never_throws w query :
  (query_capability w = None → safeMatch w query = false)
  ∧ (∀ f e, query_capability w = Some f → f query = inl e →
       safeMatch w query = false)
  ∧ (∀ e, safeMatch_try w query = inl e → safeMatch w query = false)
  ∧ (∀ f b, query_capability w = Some f → f query = inr b →
       safeMatch w query = b).
Proof.
  unfold safeMatch.
  destruct w as [[[[|f]|] inherited]|]; cbn; split_and!; try done.
  - intros g e [= <-] Hq. by rewrite Hq.
  - intros e Hq. by rewrite Hq.
  - intros g b [= <-] Hq. by rewrite Hq.
Qed.

Lemma safeMatch_never_throws_witness :
  query_capability None = None
  ∧ safeMatch None "(min-width: 768px)" = false
  ∧ safeMatch broken_display "(min-width: 768px)" = false
  ∧ safeMatch wide_display "wide" = true.
Proof.
  split; [reflexivity|].
  split_and!.
  - apply (proj1 (safeMatch_never_throws None "(min-width: 768px)")).
    reflexivity.
  - apply (proj1 (proj2 (safeMatch_never_throws broken_display
                           "(min-width: 768px)"))
             (λ _, inl (Thrown 1)) (Thrown 1)); reflexivity.
  - apply (proj2 (proj2 (proj2 (safeMatch_never_throws wide_display "wide")))
             (λ q, inr (String.eqb q "wide")) true); reflexivity.
Defined.

(** Without a window the answer does not depend on the query. *)
Lemma safeMatch_headless query : safeMatch None query = false.
Proof. done. Qed.

(** *** [matching] *)

Lemma Object_keys_app {V} (o1 o2 : record V) :
  Object_keys (o1 ++ o2) = Object_keys o1 ++ Object_keys o2.
Proof. apply fmap_app. Qed.

(** Assigning names that are all new, and none of them ["__proto__"],
    appends them in order. *)
Lemma foldl_assign_fresh (val : string → bool) (keys : list string) rs :
  NoDup keys → (∀ k, k ∈ keys → k ∉ Object_keys rs) → "__proto__" ∉ keys →
  foldl (λ rs key, assign rs key (val key)) rs keys
  = rs ++ ((λ k, (k, val k)) <$> keys).
Proof.
  revert rs. induction keys as [|k keys IH]; intros rs Hnd Hfresh Hproto.
  - by rewrite app_nil_r.
  - apply NoDup_cons in Hnd as [Hk Hnd].
    apply not_elem_of_cons in Hproto as [Hne Hproto].
    cbn [foldl]. unfold assign at 2.
    rewrite (proj2 (own_None rs k)) by (apply Hfresh; by left).
    rewrite decide_False by done.
    rewrite IH; [|done| |done].
    + by rewrite <- app_assoc.
    + intros k' Hk'. rewrite Object_keys_app, elem_of_app.
      intros [Hin|Hin%list_elem_of_singleton].
      * by apply (Hfresh k'); [right|].
      * by subst.
Qed.

Lemma own_tabulated (val : string → bool) (keys : list string) key :
  own ((λ k, (k, val k)) <$> keys) key
  = if decide (key ∈ keys) then Some (val key) else None.
Proof.
  induction keys as [|k keys IH]; [done|].
  cbn [fmap list_fmap own]. destruct (decide (k = key)) as [->|Hne].
  - rewrite decide_True; [done|by left].
  - rewrite IH. destruct (decide (key ∈ keys)) as [Hin|Hin].
    + rewrite decide_True; [done|by right].
    + rewrite decide_False; [done|].
      by intros [->|?]%elem_of_cons.
Qed.

(** For a mapping with distinct names, none of them ["__proto__"], the
    result has the names of the mapping, in the same order, each with the
    answer of [safeMatch] on its own condition string. *)
Lemma matching_names w queries :
  NoDup (Object_keys queries) → "__proto__" ∉ Object_keys queries →
  ∃ rs, matching w (Named queries) = Flags rs
        ∧ Object_keys rs = Object_keys queries
        ∧ ∀ key, own rs key = safeMatch w <$> own queries key.
Proof.
  intros Hnd Hproto. eexists. split; [done|].
  rewrite (foldl_assign_fresh (λ key, safeMatch w (query_at queries key)))
    by (done || intros k _; apply not_elem_of_nil).
  cbn [app]. split.
  - unfold Object_keys at 1. rewrite <- list_fmap_compose.
    apply list_fmap_id.
  - intros key. rewrite own_tabulated. unfold query_at.
    destruct (own queries key) as [q|] eqn:Hq.
    + rewrite decide_True; [done|]. apply own_is_Some. by rewrite Hq.
    + rewrite decide_False; [done|]. by apply own_None.
Qed.

(** C7, on the code. For the mapping whose only name is ["__proto__"]
    the result has no name at all: the assignment [rs[key] = ...] is
    swallowed by the accessor that [rs] inherits, whatever the
    environment. *)
Theorem matching_loses_proto_name w :
  Object_keys proto_named = ["__proto__"]
  ∧ matching w (Named proto_named) = Flags []
  ∧ Object_keys (@nil (string * bool)) ≠ Object_keys proto_named.
Proof. by split_and!. Qed.

(** The scenario of the specification: a display that matches ["wide"]. *)
Example matching_mobile_desktop :
  matching wide_display (Named [("mobile", "narrow"); ("desktop", "wide")])
  = Flags [("mobile", false); ("desktop", true)].
Proof. reflexivity. Qed.

(** *** [isEqual] *)

Lemma get_boolean o key b : get o key = ABoolean b ↔ own o key = Some b.
Proof.
  unfold get. destruct (own o key) as [b'|].
  - split; by intros [= ->].
  - by destruct (decide (key ∈ Object_prototype_names)).
Qed.

Lemma isEqual_Flags a b :
  isEqual (Flags a) (Flags b) = true ↔
  length (Object_keys a) = length (Object_keys b)
  ∧ ∀ key, key ∈ Object_keys a → get a key = get b key.
Proof.
  cbn [isEqual].
  destruct (Nat.eqb_spec (length (Object_keys a)) (length (Object_keys b)))
    as [Hlen|Hlen]; cbn [negb]; [|by split; [|intros [? _]]].
  destruct (Nat.eqb_spec (length (Object_keys a)) 0) as [Hnil|Hnil].
  - apply nil_length_inv in Hnil. split; [|done].
    intros _. split; [done|]. rewrite Hnil. by intros key ?%not_elem_of_nil.
  - rewrite <- Is_true_true, forallb_True, Forall_forall.
    unfold strict_equal. split.
    + intros Hall. split; [done|]. intros key Hkey.
      specialize (Hall key Hkey). by apply bool_decide_unpack in Hall.
    + intros [_ Hall] key Hkey. apply bool_decide_pack. by apply Hall.
Qed.

Lemma isEqual_same_properties a b :
  NoDup (Object_keys a) → NoDup (Object_keys b) →
  isEqual (Flags a) (Flags b) = true ↔ ∀ key, own a key = own b key.
Proof.
  intros Hna Hnb. rewrite isEqual_Flags. split.
  - intros [Hlen Hall].
    assert (Hsub : ∀ key v, own a key = Some v → own b key = Some v).
    { intros key v Ho. apply get_boolean. rewrite <- Hall.
      - by apply get_boolean.
      - apply own_is_Some. by rewrite Ho. }
    assert (Hperm : Object_keys a ≡ₚ Object_keys b).
    { apply submseteq_length_Permutation; [|lia].
      apply NoDup_submseteq; [done|]. intros key [v Hv]%own_is_Some.
      apply own_is_Some. rewrite (Hsub _ _ Hv). by eexists. }
    intros key. destruct (own a key) as [v|] eqn:Ho.
    + symmetry. by apply Hsub.
    + symmetry. apply own_None. rewrite <- Hperm. by apply own_None.
  - intros Hown.
    assert (Hkeys : ∀ key, key ∈ Object_keys a ↔ key ∈ Object_keys b).
    { intros key. by rewrite <- !own_is_Some, Hown. }
    split.
    + by apply Permutation_length, NoDup_Permutation.
    + intros key _. unfold get. by rewrite Hown.
Qed.

(** C8. [isEqual] is reflexive, empty mappings included. On two mappings
    (each with distinct names) it answers [true] exactly when they have as
    many names, the same names, and the same boolean under every name; so
    it does not depend on the order in which the names were inserted, and
    it answers [false] when the numbers of names differ. Two booleans are
    equal exactly when they are the same. *)
Theorem isEqual_structural r a b x y :
  NoDup (Object_keys a) → NoDup (Object_keys b) →
  isEqual r r = true
  ∧ isEqual (Flags []) (Flags []) = true
  ∧ (isEqual (Flags a) (Flags b) = true ↔
       length (Object_keys a) = length (Object_keys b)
       ∧ (∀ key, key ∈ Object_keys a ↔ key ∈ Object_keys b)
       ∧ (∀ key, own a key = own b key))
  ∧ (a ≡ₚ b → isEqual (Flags a) (Flags b) = true)
  ∧ (length (Object_keys a) ≠ length (Object_keys b) →
       isEqual (Flags a) (Flags b) = false)
  ∧ (isEqual (Flag x) (Flag y) = true ↔ x = y).
Proof.
  intros Hna Hnb. split_and!.
  - destruct r as [c|rs]; [by destruct c|].
    apply isEqual_Flags. by split.
  - done.
  - rewrite isEqual_same_properties by done. split.
    + intros Hown. split_and!; [|by intros key; rewrite <- !own_is_Some, Hown
                                |done].
      apply Permutation_length, NoDup_Permutation; [done..|].
      intros key. by rewrite <- !own_is_Some, Hown.
    + by intros (_ & _ & Hown).
  - intros Hp. apply isEqual_same_properties; [done..|].
    intros key. by apply own_Permutation.
  - intros Hlen. apply not_true_is_false. rewrite isEqual_Flags.
    by intros [? _].
  - cbn [isEqual]. by destruct x, y.
Qed.

Lemma isEqual_structural_witness :
  NoDup (Object_keys [("a", true); ("b", false)])
  ∧ isEqual (Flags [("a", true); ("b", false)])
            (Flags [("b", false); ("a", true)]) = true
  ∧ isEqual (Flags [("a", true)]) (Flags [("a", true); ("b", false)]) = false.
Proof.
  assert (Hab : NoDup (Object_keys [("a", true); ("b", false)]))
    by (apply (bool_decide_unpack _); reflexivity).
  assert (Hba : NoDup (Object_keys [("b", false); ("a", true)]))
    by (apply (bool_decide_unpack _); reflexivity).
  assert (Ha : NoDup (Object_keys [("a", true)]))
    by (apply (bool_decide_unpack _); reflexivity).
  split; [exact Hab|]. split.
  - destruct (isEqual_structural (Flag true) [("a", true); ("b", false)]
                [("b", false); ("a", true)] true true Hab Hba)
      as (_ & _ & _ & Hperm & _).
    apply Hperm, perm_swap.
  - destruct (isEqual_structural (Flag true) [("a", true)]
                [("a", true); ("b", false)] true true Ha Hab)
      as (_ & _ & _ & _ & Hlen & _).
    apply Hlen. cbn. lia.
Defined.

End MediaQueryProofs.

(** ** Properties of the parallel combinator *)

Module CallbacksProofs.
Import EventChain Callbacks.
Import EventChainProofs.

Lemma calls_cons_Invoked f v l : calls (Invoked f v :: l) = f :: calls l.
Proof. done. Qed.

Lemma never_throws_tail h c l : never_throws h (c :: l) → never_throws h l.
Proof. intros Hn f v e Hf. apply Hn. by right. Qed.

Lemma never_throws_app_l h l1 l2 : never_throws h (l1 ++ l2) → never_throws h l1.
Proof. intros Hn f v e Hf. apply Hn, elem_of_app. by left. Qed.

Lemma forEach_all h callbacks args :
  never_throws h callbacks →
  completion (forEach h callbacks args) = Returns
  ∧ calls (made (forEach h callbacks args)) = functions callbacks.
Proof.
  revert args. induction callbacks as [|c l IH]; intros args Hn; [done|].
  pose proof (never_throws_tail _ _ _ Hn) as Hn'.
  rewrite functions_cons. destruct c as [f| |]; cbn [forEach]; [|by apply IH..].
  destruct (out (h f (first_arg args))) as [|e|later s] eqn:Hout.
  - cbn [after_call completion made]. rewrite calls_cons_Invoked.
    destruct (IH (set_first_arg (touched (touch (h f (first_arg args)))
                                   (first_arg args)) args) Hn') as [-> ->].
    done.
  - destruct (Hn f (first_arg args) e); [by left|done].
  - cbn [after_call completion made]. rewrite calls_cons_Invoked.
    destruct (IH (set_first_arg (touched (touch (h f (first_arg args)))
                                   (first_arg args)) args) Hn') as [-> ->].
    done.
Qed.

(** The loop over two lists in a row: the second is reached only when the
    first ended without an exception, and starts from the arguments the
    first left. *)
Lemma callbacks_forEach_app h l1 l2 args :
  completion (forEach h l1 args) = Returns →
  made (forEach h (l1 ++ l2) args)
  = made (forEach h l1 args)
    ++ made (forEach h l2 (args_after (forEach h l1 args)))
  ∧ completion (forEach h (l1 ++ l2) args)
    = completion (forEach h l2 (args_after (forEach h l1 args))).
Proof.
  revert args. induction l1 as [|c l1 IH]; intros args; [done|].
  destruct c as [f| |]; cbn [app forEach]; [|by apply IH..].
  destruct (out (h f (first_arg args))) as [|e|later s]; [|done|];
    cbn [after_call completion made args_after]; intros Hc;
    destruct (IH _ Hc) as [-> ->]; done.
Qed.

(** X1. When no callback of the list throws synchronously, the combined
    callback calls every function of the list, in list order and once per
    occurrence (a function listed twice is called twice), skips [null] and
    [undefined], and returns normally; this holds for any arguments,
    including none, and whatever the promises the callbacks return (they
    are dropped, rejected or not). *)
Theorem combineCallback_calls_all h callbacks args :
  never_throws h callbacks →
  completion (combineCallback h callbacks args) = Returns
  ∧ calls (made (combineCallback h callbacks args)) = functions callbacks.
Proof. apply forEach_all. Qed.

Lemma combineCallback_calls_all_witness :
  never_throws first_rejects [Fn 0; Null; Fn 0; Fn 1]
  ∧ calls (made (combineCallback first_rejects [Fn 0; Null; Fn 0; Fn 1] []))
    = [0; 0; 1].
Proof.
  assert (Hn : never_throws first_rejects [Fn 0; Null; Fn 0; Fn 1]).
  { intros f v e _. unfold first_rejects. cbn. by destruct (decide (f = 0)). }
  split; [exact Hn|].
  exact (proj2 (combineCallback_calls_all first_rejects
                  [Fn 0; Null; Fn 0; Fn 1] [] Hn)).
Defined.

(** X2. When a callback throws synchronously (those before it in the list
    did not), the combined callback throws that exception to its caller
    and the entries listed after it are not called. *)
Theorem combineCallback_stops_at_throw h before f after args e :
  never_throws h before →
  out (h f (first_arg (args_after (forEach h before args)))) = Throws e →
  completion (combineCallback h (before ++ Fn f :: after) args) = Throws e
  ∧ calls (made (combineCallback h (before ++ Fn f :: after) args))
    = functions before ++ [f].
Proof.
  intros Hn Hout. unfold combineCallback, combinedCallback.
  destruct (forEach_all h before args Hn) as [Hc Hcalls].
  destruct (callbacks_forEach_app h before (Fn f :: after) args Hc) as [-> ->].
  cbn [forEach]. rewrite Hout. cbn [completion made].
  by rewrite calls_app, Hcalls.
Qed.

Lemma combineCallback_stops_at_throw_witness :
  never_throws first_throws [Fn 1; Null]
  ∧ completion (combineCallback first_throws ([Fn 1; Null] ++ Fn 0 :: [Fn 2])
                  [plain_event])
    = Throws (Thrown 7).
Proof.
  assert (Hn : never_throws first_throws [Fn 1; Null]).
  { intros f v e Hf. apply elem_of_cons in Hf as [[= ->]|Hf]; [done|].
    apply elem_of_cons in Hf as [Hf|Hf]; [done|by apply not_elem_of_nil in Hf]. }
  split; [exact Hn|].
  exact (proj1 (combineCallback_stops_at_throw first_throws [Fn 1; Null] 0
                  [Fn 2] [plain_event] (Thrown 7) Hn eq_refl)).
Defined.

End CallbacksProofs.

(** ** More properties of the event chain combinator *)

Module EventChainMore.
Import EventChain ChainReading.
Import EventChainProofs.

Lemma sequence_calls_prefix h s args :
  calls (log (sequence h s args)) `prefix_of` functions s.
Proof.
  revert args. induction s as [|c s IH]; intros args; [done|].
  rewrite functions_cons. destruct c as [f| |]; cbn [sequence]; [|apply IH..].
  execute_cases h f args; cbn [logged log]; rewrite ?calls_app;
    try apply prefix_nil;
    try (apply (prefix_app [f]), IH);
    by apply (prefix_app [f]), prefix_nil.
Qed.

(** X3. Whatever happens in an invocation (completion, cancellation,
    failure, a result that never settles), the functions invoked so far
    are an initial part of the distinct functions of the list in order of
    first occurrence: [combineEvents] never invokes a function twice in one
    invocation, never out of order, and never skips one to run a later
    one. *)
Theorem combineEvents_calls_in_order h callbacks args :
  calls (log (chain (combineEvents h callbacks args)))
    `prefix_of` first_occurrences (functions callbacks)
  ∧ NoDup (calls (log (chain (combineEvents h callbacks args)))).
Proof.
  unfold combineEvents. rewrite chain_sequence.
  pose proof (sequence_calls_prefix h (first_occurrences callbacks) args)
    as Hp.
  rewrite functions_first_occurrences in Hp. split; [done|].
  destruct Hp as [k Hk].
  pose proof (NoDup_first_occurrences (functions callbacks)) as Hnd.
  rewrite Hk in Hnd. by apply NoDup_app in Hnd as [? _].
Qed.

Lemma timers_app l k : timers (l ++ k) = timers l + timers k.
Proof.
  induction l as [|e l IH]; [done|]. destruct e; cbn; by rewrite ?IH.
Qed.

Lemma sequence_timers h s args :
  timers (log (sequence h s args)) ≤ length s
  ∧ (ending_of (sequence h s args) = Completed ↔
     timers (log (sequence h s args)) = length s).
Proof.
  revert args. induction s as [|c s IH]; intros args; [done|].
  assert (Hskip : ∀ r, timers (log r) ≤ length s
                       ∧ (ending_of r = Completed ↔ timers (log r) = length s) →
            timers (log (logged [Timer] r)) ≤ length (c :: s)
            ∧ (ending_of (logged [Timer] r) = Completed ↔
               timers (log (logged [Timer] r)) = length (c :: s))).
  { intros r [Hle Hiff]. cbn. rewrite Hiff. split; lia. }
  assert (Hcall : ∀ f v r, timers (log r) ≤ length s
                       ∧ (ending_of r = Completed ↔ timers (log r) = length s) →
            timers (log (logged [Invoked f v; Awaited f; Timer] r))
            ≤ length (c :: s)
            ∧ (ending_of (logged [Invoked f v; Awaited f; Timer] r) = Completed ↔
               timers (log (logged [Invoked f v; Awaited f; Timer] r))
               = length (c :: s))).
  { intros f v r [Hle Hiff]. cbn. rewrite Hiff. split; lia. }
  destruct c as [f| |]; cbn [sequence]; [|by apply Hskip..].
  execute_cases h f args; try (by apply Hcall); cbn; (split; [lia|done]).
Qed.

(** X4. Between two entries [execute] is always rescheduled through
    [setTimeout(execute, 0)], for absent entries too: a chain reaches
    completion exactly when it has gone through as many timers as the list
    has distinct entries, and otherwise it has gone through fewer. *)
Theorem combineEvents_one_timer_per_entry h callbacks args :
  timers (log (chain (combineEvents h callbacks args)))
  ≤ length (first_occurrences callbacks)
  ∧ (ending_of (chain (combineEvents h callbacks args)) = Completed ↔
     timers (log (chain (combineEvents h callbacks args)))
     = length (first_occurrences callbacks)).
Proof.
  unfold combineEvents. rewrite chain_sequence. apply sequence_timers.
Qed.

(** X5. The combined handler throws to its caller in one situation only:
    the first entry of the list is a function and the first argument is
    [undefined] (or missing) or [null]; what it throws is the [TypeError]
    of the inspection, and no handler has been invoked. An exception
    thrown by a handler never reaches the caller. *)
Theorem combineEvents_throws_only_on_missing_event h callbacks args e :
  returned (combineEvents h callbacks args) = Throws e ↔
  e = TypeError ∧ nullish (first_arg args) = true
  ∧ (∃ f rest, callbacks = Fn f :: rest)
  ∧ log (chain (combineEvents h callbacks args)) = [].
Proof.
  unfold combineEvents. rewrite chain_sequence, returned_first.
  destruct callbacks as [|[f| |] rest]; cbn [first_occurrences sequence];
    try (split; [done|by intros (_ & _ & (g & k & [=]) & _)]).
  destruct (first_arg args) as [| | |o]; cbn.
  - split; [intros [= <-]|intros [-> _]]; eauto 10.
  - split; [intros [= <-]|intros [-> _]]; eauto 10.
  - split; [done|by intros (_ & [=] & _)].
  - destruct (_ && _); (split; [done|by intros (_ & [=] & _)]).
Qed.

Lemma sequence_first_call h s args l g v l' :
  log (sequence h s args) = l ++ Invoked g v :: l' → calls l = [] →
  v = first_arg args.
Proof.
  revert args l. induction s as [|c s IH]; intros args l.
  { by destruct l. }
  destruct c as [f| |]; cbn [sequence].
  - execute_cases h f args; cbn [logged log app];
      destruct l as [|? l]; intros Hl Hc; by simplify_eq/=.
  - destruct l as [|? l]; intros Hl Hc; simplify_eq/=. by eapply IH.
  - destruct l as [|? l]; intros Hl Hc; simplify_eq/=. by eapply IH.
Qed.

Lemma sequence_hands_over h s args l1 f v l2 g v' l3 :
  log (sequence h s args) = l1 ++ Invoked f v :: l2 ++ Invoked g v' :: l3 →
  calls l2 = [] →
  v' = left_by h f v.
Proof.
  revert args l1. induction s as [|c s IH]; intros args l1.
  { by destruct l1. }
  destruct c as [f0| |]; cbn [sequence].
  - execute_cases h f0 args; cbn [logged log app].
    + by destruct l1.
    + by destruct l1.
    + destruct l1 as [|? [|? [|? l1]]]; intros Hl Hc; simplify_eq/=.
      * destruct l2 as [|? [|? l2]]; simplify_eq/=.
        unfold left_by. rewrite Hout.
        erewrite (sequence_first_call h s _ l2 g v' l3); [|done..].
        by rewrite first_arg_set.
      * by eapply IH.
    + destruct l1 as [|? [|? l1]]; intros Hl Hc; simplify_eq/=;
        destruct l2; simplify_eq/=.
    + destruct l1 as [|? [|? [|? l1]]]; intros Hl Hc; simplify_eq/=.
      * destruct l2 as [|? [|? l2]]; simplify_eq/=.
        unfold left_by. rewrite Hout.
        erewrite (sequence_first_call h s _ l2 g v' l3); [|done..].
        by rewrite !first_arg_set.
      * by eapply IH.
    + destruct l1 as [|? [|? l1]]; intros Hl Hc; simplify_eq/=;
        destruct l2; simplify_eq/=.
    + destruct l1 as [|? [|? l1]]; intros Hl Hc; simplify_eq/=;
        destruct l2; simplify_eq/=.
  - destruct l1 as [|? l1]; intros Hl Hc; simplify_eq/=. by eapply IH.
  - destruct l1 as [|? l1]; intros Hl Hc; simplify_eq/=. by eapply IH.
Qed.

(** X17. The handlers of one invocation share the event: the first handler
    invoked receives the first argument as the caller passed it, and every
    handler invoked after another one, at whatever position in the chain,
    receives the event as the handler invoked just before it left it,
    changes made before that handler's promise fulfilled included; absent
    entries in between change nothing. *)
Theorem combineEvents_hands_event_over h callbacks args :
  (∀ l g v l',
     log (chain (combineEvents h callbacks args)) = l ++ Invoked g v :: l' →
     calls l = [] → v = first_arg args)
  ∧ (∀ l1 f v l2 g v' l3,
       log (chain (combineEvents h callbacks args))
       = l1 ++ Invoked f v :: l2 ++ Invoked g v' :: l3 →
       calls l2 = [] → v' = left_by h f v).
Proof.
  unfold combineEvents. rewrite chain_sequence. split.
  - intros l g v l' Hlog Hc. by eapply sequence_first_call.
  - intros l1 f v l2 g v' l3 Hlog Hc. by eapply sequence_hands_over.
Qed.

Lemma combineEvents_hands_event_over_witness :
  log (chain (combineEvents each_marks [Fn 0; Null; Fn 1; Fn 2] [plain_event]))
  = [Invoked 0 plain_event; Awaited 0; Timer; Timer]
    ++ Invoked 1 (VObject (Object None (Some (PNum 0))))
    :: [Awaited 1; Timer]
    ++ Invoked 2 (VObject (Object None (Some (PNum 1))))
    :: [Awaited 2; Timer]
  ∧ VObject (Object None (Some (PNum 1)))
    = left_by each_marks 1 (VObject (Object None (Some (PNum 0)))).
Proof.
  assert (Hlog :
    log (chain (combineEvents each_marks [Fn 0; Null; Fn 1; Fn 2]
                  [plain_event]))
    = [Invoked 0 plain_event; Awaited 0; Timer; Timer]
      ++ Invoked 1 (VObject (Object None (Some (PNum 0))))
      :: [Awaited 1; Timer]
      ++ Invoked 2 (VObject (Object None (Some (PNum 1))))
      :: [Awaited 2; Timer]) by reflexivity.
  split; [exact Hlog|].
  exact (proj2 (combineEvents_hands_event_over each_marks
                  [Fn 0; Null; Fn 1; Fn 2] [plain_event])
           _ _ _ _ _ _ _ Hlog eq_refl).
Defined.

End EventChainMore.

(** ** Properties of the ref combinator *)

Module RefsProofs.
Import Refs.

Lemma callback_ids_cons r refs :
  callback_ids (r :: refs) =
  match r with CallbackRef f => f :: callback_ids refs | _ => callback_ids refs end.
Proof. by destruct r. Qed.

Lemma passive_tail h r refs : passive h (r :: refs) → passive h refs.
Proof. intros Hp f i s Hf. apply Hp. by right. Qed.

Lemma harmless_tail h r refs : harmless h (r :: refs) → harmless h refs.
Proof. intros Hp f i s Hf. apply Hp. by right. Qed.

Lemma forEach_passive h refs i s :
  passive h refs →
  thrown (forEach h refs i s) = None
  ∧ ∀ a, store_after (forEach h refs i s) a =
         match s a with
         | None => None
         | Some v => if decide (RefObject a ∈ refs) then Some i else Some v
         end.
Proof.
  revert s. induction refs as [|r refs IH]; intros s Hp.
  { split; [done|]. intros a. cbn. destruct (s a); [|done].
    rewrite decide_False; [done|apply not_elem_of_nil]. }
  pose proof (passive_tail _ _ _ Hp) as Hp'.
  assert (Hother : ∀ a, r ≠ RefObject a →
            (RefObject a ∈ r :: refs) ↔ (RefObject a ∈ refs)).
  { intros a Hr. rewrite elem_of_cons.
    split; [intros [Heq|?]; [by destruct Hr|done]|by right]. }
  destruct r as [f|b| |]; cbn [forEach].
  - rewrite (Hp f i s) by (by left). cbn [after_callback thrown store_after].
    destruct (IH s Hp') as [-> Hs]. split; [done|]. intros a. rewrite Hs.
    destruct (s a); [|done]. apply decide_ext. symmetry. by apply Hother.
  - destruct (IH (set_current b i s) Hp') as [-> Hs]. split; [done|].
    intros a. rewrite Hs. unfold set_current.
    destruct (s b) as [vb|] eqn:Hb.
    + destruct (decide (a = b)) as [->|Hne].
      * rewrite Hb. rewrite (decide_True (P := RefObject b ∈ RefObject b :: refs))
          by (by left).
        by destruct (decide (RefObject b ∈ refs)).
      * destruct (s a); [|done]. apply decide_ext. symmetry.
        apply Hother. congruence.
    + destruct (decide (a = b)) as [->|Hne]; [by rewrite Hb|].
      destruct (s a); [|done]. apply decide_ext. symmetry.
      apply Hother. congruence.
  - destruct (IH s Hp') as [-> Hs]. split; [done|]. intros a. rewrite Hs.
    destruct (s a); [|done]. apply decide_ext. symmetry. by apply Hother.
  - destruct (IH s Hp') as [-> Hs]. split; [done|]. intros a. rewrite Hs.
    destruct (s a); [|done]. apply decide_ext. symmetry. by apply Hother.
Qed.

(** X6. When the callback refs of the list leave the ref objects alone,
    calling the combined ref with an instance stores that instance (or
    [null]) in the [current] of every listed ref object that has its own
    [current]; an object without an own [current] is not given one, a ref
    object that is not listed keeps its value, [null] and [undefined]
    entries are passed over, and nothing is thrown. *)
Theorem combineRefs_sets_every_current h refs i s a :
  passive h refs →
  thrown (combineRefs h refs i s) = None
  ∧ (RefObject a ∈ refs → is_Some (s a) →
     store_after (combineRefs h refs i s) a = Some i)
  ∧ (s a = None → store_after (combineRefs h refs i s) a = None)
  ∧ (RefObject a ∉ refs → store_after (combineRefs h refs i s) a = s a).
Proof.
  intros Hp. unfold combineRefs.
  destruct (forEach_passive h refs i s Hp) as [Ht Hs]. rewrite Hs.
  split_and!; [done|..].
  - intros Hin [v ->]. by rewrite decide_True.
  - by intros ->.
  - intros Hin. destruct (s a); [|done]. by rewrite decide_False.
Qed.

Lemma recorders_passive refs : passive recorders refs.
Proof. done. Qed.

Lemma combineRefs_sets_every_current_witness :
  passive recorders [RefObject 0; NullRef; CallbackRef 7; RefObject 2]
  ∧ store_after (combineRefs recorders
                   [RefObject 0; NullRef; CallbackRef 7; RefObject 2]
                   (Some 9) two_refs) 0
    = Some (Some 9)
  ∧ store_after (combineRefs recorders
                   [RefObject 0; NullRef; CallbackRef 7; RefObject 2]
                   (Some 9) two_refs) 2
    = None.
Proof.
  split; [apply recorders_passive|].
  destruct (combineRefs_sets_every_current recorders
              [RefObject 0; NullRef; CallbackRef 7; RefObject 2] (Some 9)
              two_refs 0 (recorders_passive _)) as (_ & H0 & _).
  destruct (combineRefs_sets_every_current recorders
              [RefObject 0; NullRef; CallbackRef 7; RefObject 2] (Some 9)
              two_refs 2 (recorders_passive _)) as (_ & _ & H2 & _).
  split; [apply H0; [by left|by eexists]|by apply H2].
Defined.

Lemma forEach_harmless h refs i s :
  harmless h refs →
  thrown (forEach h refs i s) = None
  ∧ called (forEach h refs i s) = (λ f, (f, i)) <$> callback_ids refs.
Proof.
  revert s. induction refs as [|r refs IH]; intros s Hh; [done|].
  pose proof (harmless_tail _ _ _ Hh) as Hh'.
  rewrite callback_ids_cons. destruct r as [f|b| |]; cbn [forEach];
    [|by apply IH..].
  pose proof (Hh f i s ltac:(by left)) as Hf.
  destruct (h f i s) as [s' [e|]]; [done|].
  cbn [after_callback thrown called]. destruct (IH s' Hh') as [-> ->]. done.
Qed.

(** X7. When no callback ref of the list throws, the combined ref calls
    every callback ref of the list with the instance it received, in list
    order and once per occurrence, whatever those callbacks do to the ref
    objects. *)
Theorem combineRefs_calls_every_callback h refs i s :
  harmless h refs →
  thrown (combineRefs h refs i s) = None
  ∧ called (combineRefs h refs i s) = (λ f, (f, i)) <$> callback_ids refs.
Proof. apply forEach_harmless. Qed.

Lemma combineRefs_calls_every_callback_witness :
  harmless recorders [CallbackRef 4; RefObject 0; CallbackRef 4; CallbackRef 1]
  ∧ called (combineRefs recorders
              [CallbackRef 4; RefObject 0; CallbackRef 4; CallbackRef 1]
              None two_refs)
    = [(4, None); (4, None); (1, None)].
Proof.
  assert (Hh : harmless recorders
                 [CallbackRef 4; RefObject 0; CallbackRef 4; CallbackRef 1])
    by done.
  split; [exact Hh|].
  exact (proj2 (combineRefs_calls_every_callback recorders
                  [CallbackRef 4; RefObject 0; CallbackRef 4; CallbackRef 1]
                  None two_refs Hh)).
Defined.

Lemma refs_forEach_app h l1 l2 i s :
  thrown (forEach h l1 i s) = None →
  forEach h (l1 ++ l2) i s
  = Applied (called (forEach h l1 i s)
               ++ called (forEach h l2 i (store_after (forEach h l1 i s))))
      (store_after (forEach h l2 i (store_after (forEach h l1 i s))))
      (thrown (forEach h l2 i (store_after (forEach h l1 i s)))).
Proof.
  revert s. induction l1 as [|r l1 IH]; intros s.
  { intros _. cbn. by destruct (forEach h l2 i s). }
  destruct r as [f|b| |]; cbn [app forEach]; [|by apply IH..].
  destruct (h f i s) as [s' [e|]]; [done|].
  cbn [after_callback thrown called store_after]. intros Ht.
  by rewrite (IH s' Ht).
Qed.

(** X8. When a callback ref throws (those before it did not), the combined
    ref throws that exception, and the refs listed after it are neither
    called nor assigned: the ref objects are left as the throwing callback
    left them. *)
Theorem combineRefs_stops_at_throw h before f after i s e :
  harmless h before →
  (h f i (store_after (forEach h before i s))).2 = Some e →
  thrown (combineRefs h (before ++ CallbackRef f :: after) i s) = Some e
  ∧ called (combineRefs h (before ++ CallbackRef f :: after) i s)
    = ((λ g, (g, i)) <$> callback_ids before) ++ [(f, i)]
  ∧ store_after (combineRefs h (before ++ CallbackRef f :: after) i s)
    = (h f i (store_after (forEach h before i s))).1.
Proof.
  intros Hh Hf. unfold combineRefs.
  destruct (forEach_harmless h before i s Hh) as [Ht Hc].
  rewrite (refs_forEach_app h before _ i s Ht), Hc. cbn [forEach].
  destruct (h f i (store_after (forEach h before i s))) as [s' [e'|]];
    cbn in Hf; [|done].
  by injection Hf as ->.
Qed.

Lemma combineRefs_stops_at_throw_witness :
  harmless first_callback_throws [RefObject 0]
  ∧ thrown (combineRefs first_callback_throws
              ([RefObject 0] ++ CallbackRef 0 :: [RefObject 1])
              (Some 9) two_refs)
    = Some (Thrown 3)
  ∧ store_after (combineRefs first_callback_throws
                   ([RefObject 0] ++ CallbackRef 0 :: [RefObject 1])
                   (Some 9) two_refs) 1
    = Some (Some 5).
Proof.
  assert (Hh : harmless first_callback_throws [RefObject 0]).
  { intros f i s Hf. apply list_elem_of_singleton in Hf. discriminate Hf. }
  split; [exact Hh|].
  destruct (combineRefs_stops_at_throw first_callback_throws [RefObject 0] 0
              [RefObject 1] (Some 9) two_refs (Thrown 3) Hh eq_refl)
    as (Ht & _ & Hs).
  split; [exact Ht|]. by rewrite Hs.
Defined.

End RefsProofs.

(** ** Properties of the media-query hook and of the breakpoint selector *)

Module MediaHookProofs.
Import MediaQuery MediaHook.
Import MediaQueryProofs.

(** *** [matching], one name at a time *)

Lemma query_at_own (o : record string) key q :
  NoDup (Object_keys o) → (key, q) ∈ o → query_at o key = q.
Proof. intros Hnd Hin. unfold query_at. by rewrite (own_elem_of o key q). Qed.

Lemma matching_Named w (o : record string) :
  NoDup (Object_keys o) → "__proto__" ∉ Object_keys o →
  matching w (Named o) = Flags ((λ kq, (kq.1, safeMatch w kq.2)) <$> o).
Proof.
  intros Hnd Hproto. cbn [matching]. f_equal.
  rewrite (foldl_assign_fresh (λ key, safeMatch w (query_at o key)))
    by (done || intros k _; apply not_elem_of_nil).
  cbn [app]. unfold Object_keys. rewrite <- list_fmap_compose.
  apply Forall_fmap_ext_1, Forall_forall. intros [k q] Hin. cbn.
  by rewrite (query_at_own o k q).
Qed.

(** X9. For a mapping whose names are distinct and do not include
    ["__proto__"], [matching] returns the names of the mapping in the same
    order, each with the answer of [safeMatch] to its own condition
    string; no name is added, dropped or answered with another name's
    condition. *)
Theorem matching_answers_name_by_name w (o : record string) :
  NoDup (Object_keys o) → "__proto__" ∉ Object_keys o →
  matching w (Named o) = Flags ((λ kq, (kq.1, safeMatch w kq.2)) <$> o).
Proof. apply matching_Named. Qed.

Lemma matching_answers_name_by_name_witness :
  NoDup (Object_keys [("mobile", "narrow"); ("desktop", "wide")])
  ∧ matching wide_display (Named [("mobile", "narrow"); ("desktop", "wide")])
    = Flags [("mobile", false); ("desktop", true)].
Proof.
  assert (Hnd : NoDup (Object_keys [("mobile", "narrow"); ("desktop", "wide")]))
    by (apply (bool_decide_unpack _); reflexivity).
  assert (Hp : "__proto__" ∉ Object_keys [("mobile", "narrow"); ("desktop", "wide")])
    by (apply (bool_decide_unpack _); reflexivity).
  split; [exact Hnd|].
  exact (matching_answers_name_by_name wide_display
           [("mobile", "narrow"); ("desktop", "wide")] Hnd Hp).
Defined.

(** *** Without a query capability *)

Lemma safeMatch_without_capability w q :
  query_capability w = None → safeMatch w q = false.
Proof. unfold safeMatch. by destruct w as [[[[|f]|] inherited]|]. Qed.

Lemma overwrite_Forall (P : bool → Prop) rs key v :
  Forall (λ kv, P kv.2) rs → P v → Forall (λ kv, P kv.2) (overwrite rs key v).
Proof.
  intros Hrs Hv. induction Hrs as [|[k b] rs Hb Hrs IH]; [constructor|].
  cbn [overwrite]. destruct (decide (k = key)); by constructor.
Qed.

Lemma assign_Forall (P : bool → Prop) rs key v :
  Forall (λ kv, P kv.2) rs → P v → Forall (λ kv, P kv.2) (assign rs key v).
Proof.
  intros Hrs Hv. unfold assign. destruct (own rs key).
  - by apply overwrite_Forall.
  - destruct (decide (key = "__proto__")); [done|].
    apply Forall_app. split; [done|]. by constructor.
Qed.

Lemma foldl_assign_Forall (P : bool → Prop) (val : string → bool) keys rs :
  Forall (λ kv, P kv.2) rs → (∀ key, P (val key)) →
  Forall (λ kv, P kv.2) (foldl (λ rs key, assign rs key (val key)) rs keys).
Proof.
  intros Hrs Hval. revert rs Hrs.
  induction keys as [|k keys IH]; intros rs Hrs; [done|].
  cbn [foldl]. apply IH. by apply assign_Forall.
Qed.

(** X10. In an environment without the query capability (no [window], as
    on a server, or a [window] without its own callable [matchMedia]) a
    single query evaluates to [false] and every name of a mapping, whatever
    the mapping, evaluates to [false]. *)
Theorem matching_all_false_without_capability w query :
  query_capability w = None →
  match matching w query with
  | Flag b => b = false
  | Flags rs => Forall (λ kv, kv.2 = false) rs
  end.
Proof.
  intros Hw. destruct query as [q|o]; cbn [matching].
  - by apply safeMatch_without_capability.
  - apply (foldl_assign_Forall (λ b, b = false)
             (λ key, safeMatch w (query_at o key))); [constructor|].
    intros key. by apply safeMatch_without_capability.
Qed.

Lemma matching_all_false_without_capability_witness :
  query_capability None = None
  ∧ matching None (Named [("mobile", "narrow"); ("desktop", "wide")])
    = Flags [("mobile", false); ("desktop", false)]
  ∧ Forall (λ kv : string * bool, kv.2 = false)
      [("mobile", false); ("desktop", false)].
Proof.
  split; [reflexivity|]. split; [reflexivity|].
  exact (matching_all_false_without_capability None
           (Named [("mobile", "narrow"); ("desktop", "wide")]) eq_refl).
Defined.

(** *** Resize events *)

Lemma isEqual_refl r : isEqual r r = true.
Proof.
  destruct r as [c|rs]; [by destruct c|]. apply isEqual_Flags. by split.
Qed.

Lemma foldl_assign_ext (val1 val2 : string → bool) (keys : list string) rs :
  (∀ key, key ∈ keys → val1 key = val2 key) →
  foldl (λ rs key, assign rs key (val1 key)) rs keys
  = foldl (λ rs key, assign rs key (val2 key)) rs keys.
Proof.
  revert rs. induction keys as [|k keys IH]; intros rs Hval; [done|].
  cbn [foldl]. rewrite (Hval k) by (by left).
  apply IH. intros key Hkey. apply Hval. by right.
Qed.

Lemma query_at_condition (o : record string) key :
  key ∈ Object_keys o → query_at o key ∈ o.*2.
Proof.
  intros [q Hq]%own_is_Some. unfold query_at. rewrite Hq. cbn.
  apply own_Some_elem in Hq. by apply (list_elem_of_fmap_2 snd) in Hq.
Qed.

Lemma matching_same_answers w w' query :
  (∀ q, q ∈ conditions query → safeMatch w' q = safeMatch w q) →
  matching w' query = matching w query.
Proof.
  intros Hq. destruct query as [q|o]; cbn [matching].
  - f_equal. apply Hq. by left.
  - f_equal. apply foldl_assign_ext. intros key Hkey.
    by apply Hq, query_at_condition.
Qed.

(** X11. A resize event that changes the answer to none of the conditions
    of the query does not update the state: [handleResize] does not call
    [setIsMatch] when the state is the evaluation made before the event. *)
Theorem handleResize_silent_when_unchanged w w' query :
  (∀ q, q ∈ conditions query → safeMatch w' q = safeMatch w q) →
  handleResize w' query (matching w query) = None
  ∧ after_resize w' query (matching w query) = matching w query.
Proof.
  intros Hq. unfold after_resize, handleResize.
  rewrite (matching_same_answers w w' query Hq), isEqual_refl. done.
Qed.

Lemma handleResize_silent_when_unchanged_witness :
  (∀ q, q ∈ conditions (Single "wide") →
        safeMatch wide_display q = safeMatch wide_display q)
  ∧ handleResize wide_display (Single "wide")
      (matching wide_display (Single "wide")) = None.
Proof.
  split; [done|].
  exact (proj1 (handleResize_silent_when_unchanged wide_display wide_display
                  (Single "wide") (λ q _, eq_refl))).
Defined.

Lemma after_resize_Named w (o : record string) st :
  NoDup (Object_keys o) → "__proto__" ∉ Object_keys o →
  NoDup (Object_keys st) →
  ∃ rs, after_resize w (Named o) (Flags st) = Flags rs
        ∧ NoDup (Object_keys rs)
        ∧ ∀ key, own rs key = safeMatch w <$> own o key.
Proof.
  intros Hnd Hproto Hst.
  destruct (matching_names w o Hnd Hproto) as (new & Hnew & Hkeys & Hown).
  assert (Hnn : NoDup (Object_keys new)) by (by rewrite Hkeys).
  unfold after_resize, handleResize. rewrite Hnew.
  destruct (isEqual (Flags st) (Flags new)) eqn:Heq; cbn [default].
  - exists st. split_and!; [done..|]. intros key. rewrite <- Hown.
    by apply isEqual_same_properties.
  - by exists new.
Qed.

Lemma after_resizes_Named ws (o : record string) st :
  NoDup (Object_keys o) → "__proto__" ∉ Object_keys o →
  NoDup (Object_keys st) →
  ∃ rs, after_resizes ws (Named o) (Flags st) = Flags rs
        ∧ NoDup (Object_keys rs).
Proof.
  intros Hnd Hproto. revert st. induction ws as [|w ws IH]; intros st Hst.
  - by exists st.
  - unfold after_resizes. cbn [foldl].
    destruct (after_resize_Named w o st Hnd Hproto Hst) as (rs & -> & Hrs & _).
    by apply IH.
Qed.

(** X12. After any series of resize events the state of the hook tells
    the truth about the last environment: for a mapping with distinct names
    (none of them ["__proto__"]), every name of the mapping reads the
    answer of [safeMatch] to its condition in that environment, and no
    other name is present, whether or not the last event updated the
    state; for a single query the state is the answer itself. *)
Theorem useMediaQuery_state_follows_environment ws w (o : record string) st q b :
  NoDup (Object_keys o) → "__proto__" ∉ Object_keys o →
  NoDup (Object_keys st) →
  (∃ rs, after_resizes (ws ++ [w]) (Named o) (Flags st) = Flags rs
         ∧ ∀ key, own rs key = safeMatch w <$> own o key)
  ∧ after_resizes (ws ++ [w]) (Single q) (Flag b) = Flag (safeMatch w q).
Proof.
  intros Hnd Hproto Hst. unfold after_resizes. rewrite !foldl_snoc. split.
  - destruct (after_resizes_Named ws o st Hnd Hproto Hst) as (rs & Hrs & Hnrs).
    unfold after_resizes in Hrs. rewrite Hrs.
    destruct (after_resize_Named w o rs Hnd Hproto Hnrs) as (rs' & -> & _ & H).
    by exists rs'.
  - assert (Hflag : ∀ ws b, ∃ b', foldl (λ st w, after_resize w (Single q) st)
                                    (Flag b) ws = Flag b').
    { clear. intros ws. induction ws as [|w ws IH]; intros b; [by eexists|].
      cbn [foldl]. unfold after_resize at 2, handleResize. cbn [matching isEqual].
      destruct (Bool.eqb b (safeMatch w q)); cbn [default]; apply IH. }
    destruct (Hflag ws b) as [b' ->].
    unfold after_resize, handleResize. cbn [matching isEqual].
    destruct (Bool.eqb b' (safeMatch w q)) eqn:Heq; cbn [default]; [|done].
    f_equal. by apply Bool.eqb_prop.
Qed.

Lemma useMediaQuery_state_follows_environment_witness :
  NoDup (Object_keys widths)
  ∧ after_resizes ([None] ++ [wide_display]) (Named widths)
      (Flags [("500px", false); ("100%", false)])
    = Flags [("100%", false); ("500px", true)].
Proof.
  assert (Hnd : NoDup (Object_keys widths))
    by (apply (bool_decide_unpack _); reflexivity).
  assert (Hp : "__proto__" ∉ Object_keys widths)
    by (apply (bool_decide_unpack _); reflexivity).
  assert (Hst : NoDup (Object_keys [("500px", false); ("100%", false)]))
    by (apply (bool_decide_unpack _); reflexivity).
  split; [exact Hnd|].
  destruct (useMediaQuery_state_follows_environment [None] wide_display widths
              [("500px", false); ("100%", false)] "wide" false Hnd Hp Hst)
    as [(rs & Hrs & _) _].
  reflexivity.
Defined.

End MediaHookProofs.

(** ** Properties of the breakpoint selector *)

Module BreakpointProofs.
Import MediaQuery MediaHook.
Import MediaQueryProofs MediaHookProofs.

Lemma first_true_answers w (o : record string) :
  first_true ((λ kq, (kq.1, safeMatch w kq.2)) <$> o) = first_matching w o.
Proof.
  unfold first_matching. induction o as [|[k q] o IH]; [done|].
  cbn [fmap list_fmap first_true list_find fst snd].
  destruct (safeMatch w q) eqn:Hq.
  - by rewrite decide_True.
  - rewrite decide_False by (cbn; congruence).
    change (list_fmap _ _ ?f o) with (f <$> o). rewrite IH.
    by destruct (list_find _ o) as [[n [k' q']]|].
Qed.

(** X14. For a mapping from values to conditions with distinct names
    (none of them ["__proto__"]), the first render returns the first name,
    in the order of the mapping, whose condition matches, and [undefined]
    when none does; in particular it returns [undefined] whenever the
    environment has no query capability (as on a server). *)
Theorem useBreakpointValue_first_match w (o : record string) :
  NoDup (Object_keys o) → "__proto__" ∉ Object_keys o →
  useBreakpointValue w (Sizes o) = inr (first_matching w o)
  ∧ (first_matching w o = JUndefined ↔
     Forall (λ kq, safeMatch w kq.2 = false) o)
  ∧ (∀ key, first_matching w o = JString key →
       ∃ q, (key, q) ∈ o ∧ safeMatch w q = true)
  ∧ (query_capability w = None →
     useBreakpointValue w (Sizes o) = inr JUndefined).
Proof.
  intros Hnd Hproto.
  assert (Hrun : useBreakpointValue w (Sizes o) = inr (first_matching w o)).
  { unfold useBreakpointValue, useMediaQuery_initial.
    rewrite matching_Named by done. cbn [select]. by rewrite first_true_answers. }
  assert (Hnone : first_matching w o = JUndefined ↔
                  Forall (λ kq, safeMatch w kq.2 = false) o).
  { unfold first_matching.
    destruct (list_find _ o) as [[n [k q]]|] eqn:Hfind.
    - split; [done|]. intros Hall.
      apply list_find_Some in Hfind as (Hl & Hq & _).
      apply list_elem_of_lookup_2 in Hl.
      rewrite Forall_forall in Hall. specialize (Hall _ Hl). cbn in *.
      congruence.
    - split; [|done]. intros _. apply list_find_None in Hfind.
      eapply Forall_impl; [done|]. intros [k q]. cbn.
      by destruct (safeMatch w q). }
  split_and!; [done|done| |].
  - unfold first_matching. intros key.
    destruct (list_find _ o) as [[n [k q]]|] eqn:Hfind; [|done].
    intros [= ->]. apply list_find_Some in Hfind as (Hl & Hq & _).
    exists q. split; [by eapply list_elem_of_lookup_2|done].
  - intros Hw. rewrite Hrun. f_equal. apply Hnone, Forall_forall.
    intros kq _. by apply safeMatch_without_capability.
Qed.

Lemma useBreakpointValue_first_match_witness :
  NoDup (Object_keys widths)
  ∧ useBreakpointValue wide_display (Sizes widths) = inr (JString "500px").
Proof.
  assert (Hnd : NoDup (Object_keys widths))
    by (apply (bool_decide_unpack _); reflexivity).
  assert (Hp : "__proto__" ∉ Object_keys widths)
    by (apply (bool_decide_unpack _); reflexivity).
  split; [exact Hnd|].
  exact (proj1 (useBreakpointValue_first_match wide_display widths Hnd Hp)).
Defined.

End BreakpointProofs.

(** ** Properties of the boolean state container *)

Module DisclosureProofs.
Import Disclosure.

Lemma toggles s n :
  foldl reduce s (setState_of <$> replicate n toggle) = xorb s (Nat.odd n).
Proof.
  revert s. induction n as [|n IH]; intros s; [by destruct s|].
  cbn [replicate fmap list_fmap foldl setState_of reduce].
  change (list_fmap _ _ ?f ?l) with (f <$> l). rewrite IH.
  rewrite Nat.odd_succ, <- Nat.negb_odd. by destruct s, (Nat.odd n).
Qed.

(** X15. Whatever was done before, once [open] (resp. [close]) has been
    used the state is [true] (resp. [false]), and [n] uses of [toggle]
    after that flip it when [n] is odd and leave it when [n] is even; with
    toggles only, the state is the initial one (false when none was
    given), flipped when their number is odd. *)
Theorem useDisclosure_last_control_wins initialState history n :
  useDisclosure initialState (history ++ open :: replicate n toggle)
  = negb (Nat.odd n)
  ∧ useDisclosure initialState (history ++ close :: replicate n toggle)
    = Nat.odd n
  ∧ useDisclosure initialState (replicate n toggle)
    = xorb (default false initialState) (Nat.odd n).
Proof.
  unfold useDisclosure. rewrite !fmap_app, !foldl_app, !fmap_cons.
  cbn [foldl setState_of reduce]. rewrite !toggles.
  split_and!; [by destruct (Nat.odd n)..|done].
Qed.

End DisclosureProofs.

(** ** The handlers of a series of renders *)

Module MemoRunsProofs.
Import Memo MemoRuns.
Import MemoProofs.

Lemma useCombineEvents_render xs memoizedState H :
  settled_cell memoizedState H →
  handler (useCombineEvents xs memoizedState H) = RFunction (S (S (next H)))
  ∧ next (heap_after (useCombineEvents xs memoizedState H)) = 3 + next H
  ∧ settled_cell (cell (useCombineEvents xs memoizedState H))
      (heap_after (useCombineEvents xs memoizedState H)).
Proof.
  unfold useCombineEvents, useMemo. cbn [alloc_array].
  destruct memoizedState as [prev|]; cbn [settled_cell].
  - intros (a & Hdeps & Hlt). rewrite Hdeps, fresh_dependency_differs by done.
    cbn. split_and!; [done..|]. exists (next H). split; [done|lia].
  - intros _. cbn. split_and!; [done..|]. exists (next H). split; [done|lia].
Qed.

Lemma useCombineRefs_render xs memoizedState H :
  settled_cell memoizedState H →
  handler (useCombineRefs xs memoizedState H) = RFunction (S (S (next H)))
  ∧ next (heap_after (useCombineRefs xs memoizedState H)) = 3 + next H
  ∧ settled_cell (cell (useCombineRefs xs memoizedState H))
      (heap_after (useCombineRefs xs memoizedState H)).
Proof.
  unfold useCombineRefs, useMemo. cbn [alloc_array].
  destruct memoizedState as [prev|]; cbn [settled_cell].
  - intros (a & Hdeps & Hlt). rewrite Hdeps, fresh_dependency_differs by done.
    cbn. split_and!; [done..|]. exists (next H). split; [done|lia].
  - intros _. cbn. split_and!; [done..|]. exists (next H). split; [done|lia].
Qed.

Section series.
Variable use : list reference → option hook → heap → rendered.
Hypothesis use_render : ∀ xs memoizedState H,
  settled_cell memoizedState H →
  handler (use xs memoizedState H) = RFunction (S (S (next H)))
  ∧ next (heap_after (use xs memoizedState H)) = 3 + next H
  ∧ settled_cell (cell (use xs memoizedState H)) (heap_after (use xs memoizedState H)).

Lemma renders_fresh xss memoizedState H x :
  settled_cell memoizedState H → x ∈ renders use xss memoizedState H →
  ∃ b, x = RFunction b ∧ next H < b.
Proof using use_render.
  revert memoizedState H. induction xss as [|xs xss IH]; intros c H Hc Hx.
  - by apply not_elem_of_nil in Hx.
  - cbn [renders] in Hx. destruct (use_render xs c H Hc) as (Hh & Hn & Hc').
    apply elem_of_cons in Hx as [->|Hx].
    + rewrite Hh. eexists. split; [done|lia].
    + destruct (IH _ _ Hc' Hx) as (b & -> & Hb). exists b. split; [done|lia].
Qed.

Lemma renders_NoDup xss memoizedState H :
  settled_cell memoizedState H → NoDup (renders use xss memoizedState H).
Proof using use_render.
  revert memoizedState H. induction xss as [|xs xss IH]; intros c H Hc.
  - constructor.
  - cbn [renders]. destruct (use_render xs c H Hc) as (Hh & Hn & Hc').
    apply NoDup_cons. split; [|by apply IH].
    intros Hin. destruct (renders_fresh _ _ _ _ Hc' Hin) as (b & Hb & Hlt).
    rewrite Hh in Hb. injection Hb as <-. lia.
Qed.

End series.

(** X16. However many times a component renders, and whatever callbacks
    or refs it passes (the same ones every time included), the handlers
    that [useCombineEvents] and [useCombineRefs] return from the mount on
    are pairwise distinct function objects: no render ever gets back a
    handler returned by an earlier one. *)
Theorem useCombine_never_returns_a_handler_twice xss H :
  NoDup (renders useCombineEvents xss None H)
  ∧ NoDup (renders useCombineRefs xss None H).
Proof.
  split.
  - by apply (renders_NoDup useCombineEvents useCombineEvents_render).
  - by apply (renders_NoDup useCombineRefs useCombineRefs_render).
Qed.

End MemoRunsProofs.
